(** * Rehuel: Runge-Kutta coefficient catalogue and step-size controller

    A shallow embedding of [irk.cpp]:
    - [verify_solver_coeffs], [get_coefficients] (the Butcher tableaus and the
      row-sum check that follows the [switch]),
    - [method_to_name], [name_to_method] (lookups in the two process-wide
      [std::map] tables through [operator[]]),
    - [get_better_time_step] (the step-size controller).

    Numbers.  The coefficients are C++ [double]s that the program computes
    with [+ - * /] and [sqrt] only, all of which IEEE 754 rounds correctly, so
    the tableaus are evaluated bit for bit in binary64 (module [F64], on top of
    the standard library's [SpecFloat]).

    The controller is written once, over the operations on [double] it uses
    (class [Doubles]), and read in two arithmetics.  In binary64
    ([B64_doubles]) products, quotients and conversions round as the
    hardware does, and libm's [pow], which is not part of the repository and
    whose finite results the C standard does not fix to the bit, is a
    parameter constrained by [libm_pow].  On the extended reals (module
    [X64]) NaN and the two infinities behave as IEEE 754 and C Annex F say
    and finite arithmetic is exact: the statements made there are about the
    special values, or about inputs on which no operation rounds. *)

From Stdlib Require Import ZArith List Bool Lia.
From Stdlib Require Import SpecFloat.
From Stdlib Require Import Reals Lra.
From stdpp Require Import base option list gmap strings fin_maps.

Local Open Scope Z_scope.

(** ** Binary64 arithmetic *)

Module F64.

Definition prec : Z := 53.
Definition emax : Z := 1024.

Definition double : Type := spec_float.

(** Conversion of an integer to [double] (exact below 2^53). *)
Definition of_Z (z : Z) : double := binary_normalize prec emax z 0 false.

Definition add : double -> double -> double := SFadd prec emax.
Definition sub : double -> double -> double := SFsub prec emax.
Definition mul : double -> double -> double := SFmul prec emax.
Definition div : double -> double -> double := SFdiv prec emax.
Definition sqrt : double -> double := SFsqrt prec emax.
Definition opp : double -> double := SFopp.
Definition fabs : double -> double := SFabs.
Definition ltb : double -> double -> bool := SFltb.
Definition leb : double -> double -> bool := SFleb.
Definition gtb (x y : double) : bool := SFltb y x.

(** A decimal literal [m / 10^k] of the source text.  The compiler reads a
    literal as the double nearest to its exact value; numerator and
    denominator below are exact doubles and IEEE division rounds to
    nearest, so the quotient is that same double. *)
Definition lit (m : Z) (k : Z) : double := div (of_Z m) (of_Z (10 ^ k)).

Definition zero : double := of_Z 0.
Definition one : double := of_Z 1.

End F64.

Declare Scope f64_scope.
Delimit Scope f64_scope with f64.
Bind Scope f64_scope with F64.double.
Notation "x + y" := (F64.add x y) : f64_scope.
Notation "x - y" := (F64.sub x y) : f64_scope.
Notation "x * y" := (F64.mul x y) : f64_scope.
Notation "x / y" := (F64.div x y) : f64_scope.
Notation "- x" := (F64.opp x) : f64_scope.
(** [# n] is the literal [n.0], or the [int] [n] promoted to [double]. *)
Notation "# n" := (F64.of_Z n) (at level 1, format "# n") : f64_scope.

Import F64.

(** ** Data model *)

(** [arma::vec] and [arma::mat]: a matrix is the list of its rows. *)
Definition vec : Type := list double.
Definition mat : Type := list (list double).

Definition n_rows (M : mat) : nat := length M.
Definition n_cols (M : mat) : nat :=
  match M with [] => 0%nat | r :: _ => length r end.

(** [M.zeros(r, k)] *)
Definition zeros (r k : nat) : mat := replicate r (replicate k zero).

(** [M(i,j) = v], written for an index inside the matrix (every assignment of
    [get_coefficients] is); outside it Armadillo's bounds check raises, here
    nothing is stored. *)
Definition mat_set (i j : nat) (v : double) (M : mat) : mat :=
  alter (fun row => <[j := v]> row) i M.

(** Reading [M(i,j)]; [None] is Armadillo's out-of-bounds error. *)
Definition mat_at (M : mat) (i j : nat) : option double :=
  row ← M !! i; row !! j.

(** [struct solver_coeffs] *)
Record solver_coeffs : Type := mk_solver_coeffs {
  A : mat;
  b : vec;
  c : vec;
  b2 : vec;
  order : Z;
  order2 : Z;
  FSAL : bool;
  name : string;
  dt : double
}.

(** [enum rk_methods]: the case labels of the [switch] in [get_coefficients],
    in the order of the source. *)
Inductive rk_methods : Set :=
  | EXPLICIT_EULER | RUNGE_KUTTA_4 | BOGACKI_SHAMPINE_32 | CASH_KARP_54
  | DORMAND_PRINCE_54 | FEHLBERG_54
  | IMPLICIT_EULER | IMPLICIT_MIDPOINT | LOBATTO_IIIA_21 | LOBATTO_IIIC_21
  | RADAU_IA_32 | RADAU_IIA_32 | LOBATTO_IIIA_43 | LOBATTO_IIIC_43
  | GAUSS_LEGENDRE_42 | RADAU_IA_54 | RADAU_IIA_54 | GAUSS_LEGENDRE_63
  | LOBATTO_IIIA_65 | LOBATTO_IIIC_65.

Definition all_methods : list rk_methods :=
  [ EXPLICIT_EULER; RUNGE_KUTTA_4; BOGACKI_SHAMPINE_32; CASH_KARP_54;
    DORMAND_PRINCE_54; FEHLBERG_54;
    IMPLICIT_EULER; IMPLICIT_MIDPOINT; LOBATTO_IIIA_21; LOBATTO_IIIC_21;
    RADAU_IA_32; RADAU_IIA_32; LOBATTO_IIIA_43; LOBATTO_IIIC_43;
    GAUSS_LEGENDRE_42; RADAU_IA_54; RADAU_IIA_54; GAUSS_LEGENDRE_63;
    LOBATTO_IIIA_65; LOBATTO_IIIC_65 ].

#[global] Instance rk_methods_eq_dec : EqDecision rk_methods.
Proof. solve_decision. Defined.

(** What [irk.hpp] declares and [irk.cpp] only uses: the values of the
    enumerators, the strings the two lookup tables are filled with, and the
    values the members [order], [order2], [FSAL] and [dt] of a
    default-constructed [solver_coeffs] hold (the struct may or may not
    initialise them). *)
Record irk_hpp : Type := mk_irk_hpp {
  method_id : rk_methods -> Z;
  method_str : rk_methods -> string;
  order_default : Z;
  order2_default : Z;
  FSAL_default : bool;
  dt_default : double
}.

(** The text written to [std::cerr], one item per [<<]. *)
Inductive token : Set :=
  | Str (s : string)
  | Int (z : Z)
  | Idx (n : nat).

(** Process-wide state: the two [std::map] tables and the error stream. *)
Record globals : Type := mk_globals {
  rk_method_to_string : gmap Z string;
  rk_string_to_method : gmap string Z;
  cerr : list token
}.

(** ** State and failure *)

(** A computation reads and writes [globals]; [None] is a C++ exception. *)
Definition M (T : Type) : Type := globals -> option (T * globals).

Definition ret {T} (x : T) : M T := fun g => Some (x, g).
Definition bind {T U} (m : M T) (k : T -> M U) : M U :=
  fun g => match m g with Some (x, g') => k x g' | None => None end.
Definition throw {T} : M T := fun _ => None.
Definition lift {T} (o : option T) : M T :=
  match o with Some x => ret x | None => throw end.

Notation "'let*' x ':=' m 'in' k" := (bind m (fun x => k))
  (at level 10, x name, m at level 100, k at level 200).
Notation "'run' m 'then' k" := (bind m (fun _ => k))
  (at level 10, m at level 100, k at level 200).

(** [std::cerr << t1 << t2 << ...] *)
Definition print (ts : list token) : M unit :=
  fun g => Some (tt, mk_globals (rk_method_to_string g) (rk_string_to_method g)
                                (cerr g ++ ts)).

(** [for (i = 0; i < n; ++i) body(i)] *)
Fixpoint for_each (idx : list nat) (body : nat -> M unit) : M unit :=
  match idx with
  | [] => ret tt
  | i :: rest => run body i then for_each rest body
  end.

(** [std::map::operator[]]: the mapped value of [k]; a key that is absent is
    first inserted with the value-initialised [dflt]. *)
Definition index_or_insert `{Countable K} {V} (k : K) (dflt : V)
    (m : gmap K V) : V * gmap K V :=
  match m !! k with
  | Some v => (v, m)
  | None => (dflt, <[k := dflt]> m)
  end.

(** ** Assignments to the members of [sc] *)

Definition stmt : Type := solver_coeffs -> solver_coeffs.

Definition set_A (v : mat) : stmt := fun sc =>
  mk_solver_coeffs v (b sc) (c sc) (b2 sc) (order sc) (order2 sc) (FSAL sc) (name sc) (dt sc).
Definition set_b (v : vec) : stmt := fun sc =>
  mk_solver_coeffs (A sc) v (c sc) (b2 sc) (order sc) (order2 sc) (FSAL sc) (name sc) (dt sc).
Definition set_c (v : vec) : stmt := fun sc =>
  mk_solver_coeffs (A sc) (b sc) v (b2 sc) (order sc) (order2 sc) (FSAL sc) (name sc) (dt sc).
Definition set_b2 (v : vec) : stmt := fun sc =>
  mk_solver_coeffs (A sc) (b sc) (c sc) v (order sc) (order2 sc) (FSAL sc) (name sc) (dt sc).
Definition set_order (v : Z) : stmt := fun sc =>
  mk_solver_coeffs (A sc) (b sc) (c sc) (b2 sc) v (order2 sc) (FSAL sc) (name sc) (dt sc).
Definition set_order2 (v : Z) : stmt := fun sc =>
  mk_solver_coeffs (A sc) (b sc) (c sc) (b2 sc) (order sc) v (FSAL sc) (name sc) (dt sc).
Definition set_FSAL (v : bool) : stmt := fun sc =>
  mk_solver_coeffs (A sc) (b sc) (c sc) (b2 sc) (order sc) (order2 sc) v (name sc) (dt sc).
Definition set_name (v : string) : stmt := fun sc =>
  mk_solver_coeffs (A sc) (b sc) (c sc) (b2 sc) (order sc) (order2 sc) (FSAL sc) v (dt sc).
Definition set_dt (v : double) : stmt := fun sc =>
  mk_solver_coeffs (A sc) (b sc) (c sc) (b2 sc) (order sc) (order2 sc) (FSAL sc) (name sc) v.

(** [sc.A.zeros(r,k)] and [sc.A(i,j) = v] *)
Definition A_zeros (r k : nat) : stmt := set_A (zeros r k).
Definition A_at (i j : nat) (v : double) : stmt := fun sc =>
  set_A (mat_set i j v (A sc)) sc.

(** A block of statements, run from first to last. *)
Definition exec (body : list stmt) (sc : solver_coeffs) : solver_coeffs :=
  fold_left (fun s f => f s) body sc.

(** ** verify_solver_coeffs *)

Definition verify_solver_coeffs (sc : solver_coeffs) : bool :=
  let N := length (b sc) in
  if negb (N =? length (c sc))%nat
     || negb (N =? n_rows (A sc))%nat
     || negb (N =? n_cols (A sc))%nat
  then false
  else true.

(** ** The coefficient tables of get_coefficients *)

Section Coefficients.
Local Open Scope f64_scope.

Definition one_third : double := #1 / #3.
Definition one_six : double := #1 / #6.
Definition sqrt3 : double := sqrt #3.
Definition sqrt5 : double := sqrt #5.
Definition sqrt6 : double := sqrt #6.
Definition sqrt15 : double := sqrt #15.

(** The body of one [case] of the [switch]. *)
Definition case_body (m : rk_methods) : list stmt :=
  match m with
  | EXPLICIT_EULER =>
    [ set_A [[ #0 ]]; set_b [ #1 ]; set_c [ #0 ];
      set_order 1; set_order2 0 ]
  | RUNGE_KUTTA_4 =>
    [ set_A [ [ #0; #0; #0; #0 ];
              [ lit 5 1; #0; #0; #0 ];
              [ #0; lit 5 1; #0; #0 ];
              [ #0; #0; #1; #0 ] ];
      set_b [ one_six; one_third; one_third; one_six ];
      set_c [ #0; lit 5 1; lit 5 1; #1 ];
      set_order 4; set_order2 0 ]
  | BOGACKI_SHAMPINE_32 =>
    [ set_A [ [ #0; #0; #0; #0 ];
              [ lit 5 1; #0; #0; #0 ];
              [ #0; lit 75 2; #0; #0 ];
              [ #2 / #9; #1 / #3; #4 / #9; #0 ] ];
      set_b [ #2 / #9; #1 / #3; #4 / #9; #0 ];
      set_b2 [ #7 / #24; lit 25 2; #1 / #3; #1 / #8 ];
      set_c [ #0; lit 5 1; lit 75 2; #1 ];
      set_FSAL true; set_order 3; set_order2 2 ]
  | CASH_KARP_54 =>
    [ A_zeros 6 6;   (* arma::mat(6,6), then zeros(6,6) *)
      A_at 1 0 (#1 / #5);
      A_at 2 0 (#3 / #40);
      A_at 3 0 (#3 / #10);
      A_at 4 0 (- #11 / #54);
      A_at 5 0 (#1631 / #55296);
      A_at 2 1 (#9 / #40);
      A_at 3 1 (- #9 / #10);
      A_at 4 1 (#5 / #2);
      A_at 5 1 (#175 / #512);
      A_at 3 2 (#6 / #5);
      A_at 4 2 (- #70 / #27);
      A_at 5 2 (#575 / #13824);
      A_at 4 3 (#35 / #27);
      A_at 5 3 (#44275 / #110592);
      A_at 5 4 (#253 / #4096);
      set_b [ #37 / #378; #0; #250 / #621; #125 / #594; #0; #512 / #1771 ];
      set_b2 [ #2825 / #27648; #0; #18575 / #48384; #13525 / #55296;
               #277 / #14336; #1 / #4 ];
      set_c [ #0; lit 2 1; lit 3 1; lit 6 1; #1; #7 / #8 ];
      set_order 5; set_order2 4 ]
  | DORMAND_PRINCE_54 =>
    [ A_zeros 7 7;
      A_at 1 0 (#1 / #5);
      A_at 2 0 (#3 / #40);
      A_at 3 0 (#44 / #45);
      A_at 4 0 (#19372 / #6561);
      A_at 5 0 (#9017 / #3168);
      A_at 6 0 (#35 / #384);
      A_at 2 1 (#9 / #40);
      A_at 3 1 (- #56 / #15);
      A_at 4 1 (- #25360 / #2187);
      A_at 5 1 (- #355 / #33);
      A_at 6 1 #0;
      A_at 3 2 (#32 / #9);
      A_at 4 2 (#64448 / #6561);
      A_at 5 2 (#46732 / #5247);
      A_at 6 2 (#500 / #1113);
      A_at 4 3 (- #212 / #729);
      A_at 5 3 (#49 / #176);
      A_at 6 3 (#125 / #192);
      A_at 5 4 (- #5103 / #18656);
      A_at 6 4 (- #2187 / #6784);
      A_at 6 5 (#11 / #84);
      set_c [ #0; lit 2 1; lit 3 1; lit 8 1; #8 / #9; #1; #1 ];
      set_b [ #35 / #384; #0; #500 / #1113; #125 / #192; - #2187 / #6784;
              #11 / #84; #0 ];
      set_b2 [ #5179 / #57600; #0; #7571 / #16695; #393 / #640;
               - #92097 / #339200; #187 / #2100; #1 / #40 ];
      set_order 5; set_order2 4; set_FSAL true ]
  | FEHLBERG_54 =>
    [ A_zeros 6 6;
      A_at 0 1 (#1 / #4);
      A_at 0 2 (#3 / #32);
      A_at 0 3 (#1932 / #2197);
      A_at 0 4 (#439 / #126);
      A_at 0 5 (- #8 / #27);
      A_at 1 2 (#9 / #32);
      A_at 1 3 (- #7200 / #2197);
      A_at 1 4 (- #8);
      A_at 1 5 #2;
      A_at 2 3 (#7296 / #2197);
      A_at 2 4 (#3680 / #513);
      A_at 2 5 (- #3544 / #2565);
      A_at 3 4 (- #845 / #4104);
      A_at 3 5 (#1859 / #4104);
      A_at 4 5 (- #11 / #40);
      set_b [ #16 / #135; #0; #6656 / #12825; #28561 / #56430; - #9 / #50;
              #2 / #55 ];
      set_b2 [ #25 / #216; #0; #1408 / #2565; #2197 / #4104; - #1 / #5; #0 ];
      set_order 5; set_order2 4 ]
  | IMPLICIT_EULER =>
    [ set_A [[ #1 ]]; set_b [ #1 ]; set_c [ #1 ];
      set_order 1; set_order2 0 ]
  | IMPLICIT_MIDPOINT =>
    [ set_A [[ lit 5 1 ]]; set_b [ #1 ]; set_c [ lit 5 1 ];
      set_order 2; set_order2 0 ]
  | LOBATTO_IIIA_21 =>
    [ set_A [ [ #0; #0 ];
              [ lit 5 1; lit 5 1 ] ];
      set_b [ lit 5 1; lit 5 1 ];
      set_c [ #0; #1 ];
      set_b2 [ lit 25 2; lit 75 2 ];
      set_order 2; set_order2 1 ]
  | LOBATTO_IIIC_21 =>
    [ set_A [ [ lit 5 1; - lit 5 1 ];
              [ lit 5 1; lit 5 1 ] ];
      set_b [ lit 5 1; lit 5 1 ];
      set_b2 [ #1 / #3; #2 / #3 ];
      set_c [ #0; #1 ];
      set_order 2; set_order2 1 ]
  | RADAU_IA_32 =>
    [ set_A [ [ #1 / #4; - #1 / #4 ];
              [ #1 / #4; #5 / #12 ] ];
      set_c [ #0; #2 / #3 ];
      set_b [ #1 / #4; #3 / #4 ];
      set_order 3; set_order2 0 ]
  | RADAU_IIA_32 =>
    [ set_A [ [ #5 / #12; - #1 / #12 ];
              [ #3 / #4; #1 / #4 ] ];
      set_c [ #1 / #3; #1 ];
      set_b [ #3 / #4; #1 / #4 ];
      set_order 3; set_order2 0 ]
  | LOBATTO_IIIA_43 =>
    [ set_A [ [ #0; #0; #0 ];
              [ #5 / #24; #1 / #3; - #1 / #24 ];
              [ #1 / #6; #2 / #3; #1 / #6 ] ];
      set_c [ #0; lit 5 1; #1 ];
      set_b [ #1 / #6; #2 / #3; #1 / #6 ];
      set_b2 [ - lit 5 1; #2; - lit 5 1 ];
      set_order 4; set_order2 3; set_FSAL true ]
  | LOBATTO_IIIC_43 =>
    [ set_A [ [ #1 / #6; - #1 / #3; #1 / #6 ];
              [ #1 / #6; #5 / #12; - #1 / #12 ];
              [ #1 / #6; #2 / #3; #1 / #6 ] ];
      set_b [ #1 / #6; #2 / #3; #1 / #6 ];
      set_b2 [ - lit 5 1; #2; - lit 5 1 ];
      set_c [ #0; lit 5 1; #1 ];
      set_order 4; set_order2 3 ]
  | GAUSS_LEGENDRE_42 =>
    [ set_A [ [ lit 25 2; lit 25 2 - sqrt3 / #6 ];
              [ lit 25 2 + sqrt3 / #6; lit 25 2 ] ];
      set_c [ lit 5 1 - sqrt3 / #6; lit 5 1 + sqrt3 / #6 ];
      set_b [ lit 5 1; lit 5 1 ];
      set_b2 [ lit 5 1 + lit 5 1 * sqrt3; lit 5 1 - lit 5 1 * sqrt3 ];
      set_order 4; set_order2 2 ]
  | RADAU_IA_54 =>
    [ set_A [ [ #1 / #9; (#(-1) - sqrt6) / #18; (#(-1) + sqrt6) / #18 ];
              [ #1 / #9; (#88 + #7 * sqrt6) / #360; (#88 - #43 * sqrt6) / #360 ];
              [ #1 / #9; (#88 + #43 * sqrt6) / #360; (#88 - #7 * sqrt6) / #360 ] ];
      set_c [ #0; (#6 - sqrt6) / #10; (#6 + sqrt6) / #10 ];
      set_b [ #1 / #9; (#16 + sqrt6) / #36; (#16 - sqrt6) / #36 ];
      set_order 5; set_order2 0 ]
  | RADAU_IIA_54 =>
    [ set_A [ [ (#88 - #7 * sqrt6) / #360; (#296 - #169 * sqrt6) / #1800;
                (#(-2) + #3 * sqrt6) / #225 ];
              [ (#296 + #169 * sqrt6) / #1800; (#88 + #7 * sqrt6) / #360;
                (#(-2) - #3 * sqrt6) / #225 ];
              [ (#16 - sqrt6) / #36; (#16 + sqrt6) / #36; #1 / #9 ] ];
      set_c [ (#4 - sqrt6) / #10; (#4 + sqrt6) / #10; #1 ];
      set_b [ (#16 - sqrt6) / #36; (#16 + sqrt6) / #36; #1 / #9 ];
      set_order 5; set_order2 0 ]
  | GAUSS_LEGENDRE_63 =>
    [ set_A [ [ #5 / #36; #2 / #9 - sqrt15 / #15; #5 / #36 - sqrt15 / #30 ];
              [ #5 / #36 + sqrt15 / #24; #2 / #9; #5 / #36 - sqrt15 / #24 ];
              [ #5 / #36 + sqrt15 / #30; #2 / #9 + sqrt15 / #15; #5 / #36 ] ];
      set_b [ #5 / #18; #4 / #9; #5 / #18 ];
      set_c [ lit 5 1 - sqrt15 / #10; lit 5 1; lit 5 1 + sqrt15 / #10 ];
      set_order 6; set_order2 0 ]
  | LOBATTO_IIIA_65 =>
    let a1 := #11 / #120 in
    let a2 := #25 / #120 in
    let a3 := sqrt5 / #120 in
    let a4 := #1 / #120 in
    [ set_A [ [ #0; #0; #0; #0 ];
              [ a1 + a3; a2 - a3; a2 - #13 * a3; - a4 + a3 ];
              [ a1 - a3; a2 + #13 * a3; a2 + a3; - a4 - a3 ];
              [ #1 / #12; #5 / #12; #5 / #12; #1 / #12 ] ];
      set_b [ #1 / #12; #5 / #12; #5 / #12; #1 / #12 ];
      set_c [ #0; lit 5 1 - sqrt5 / #10; lit 5 1 + sqrt5 / #10; #1 ];
      set_order 6; set_order2 0 ]
  | LOBATTO_IIIC_65 =>
    let a1 := #1 / #12 in
    let a2 := sqrt5 / #12 in
    let a3 := lit 25 2 in
    let a4 := #1 / #6 in
    let a5 := sqrt5 / #60 in
    [ set_A [ [ a1; - a2; a2; - a1 ];
              [ a1; a3; a4 - #7 * a5; a5 ];
              [ a1; a4 + #7 * a5; a3; - a5 ];
              [ a1; #5 * a1; #5 * a1; a1 ] ];
      set_b [ a1; #5 * a1; #5 * a1; a1 ];
      set_c [ #0; lit 5 1 - sqrt5 / #10; lit 5 1 + sqrt5 / #10; #1 ];
      set_order 6; set_order2 0 ]
  end.

End Coefficients.

(** ** method_to_name, name_to_method, get_coefficients *)

Section Catalogue.
Context (hpp : irk_hpp).

(** [irk::rk_method_to_string[method].c_str()] *)
Definition method_to_name (method : Z) : M string := fun g =>
  let '(s, tbl) := index_or_insert method ""%string (rk_method_to_string g) in
  Some (s, mk_globals tbl (rk_string_to_method g) (cerr g)).

(** [irk::rk_string_to_method[name]] *)
Definition name_to_method (nm : string) : M Z := fun g =>
  let '(id, tbl) := index_or_insert nm 0 (rk_string_to_method g) in
  Some (id, mk_globals (rk_method_to_string g) tbl (cerr g)).

(** [solver_coeffs sc;] : empty matrix and vectors, empty name; the other
    members as the struct declaration leaves them. *)
Definition default_coeffs : solver_coeffs :=
  mk_solver_coeffs [] [] [] [] (order_default hpp) (order2_default hpp)
                   (FSAL_default hpp) ""%string (dt_default hpp).

(** The label the [switch] jumps to; [None] is [default:]. *)
Definition switch_case (method : Z) : option rk_methods :=
  List.find (fun m => method_id hpp m =? method) all_methods.

(** [si]: the sum of [sc.A(i,j)] for [j < sc.c.size()], from [0.0]. *)
Fixpoint row_sum (M : mat) (i : nat) (js : list nat) (si : double)
    : option double :=
  match js with
  | [] => Some si
  | j :: rest => a ← mat_at M i j; row_sum M i rest (si + a)%f64
  end.

(** One turn of the loop under [// Some checks:]. *)
Definition check_row (method : Z) (sc : solver_coeffs) (i : nat) : M unit :=
  let* ci := lift (c sc !! i) in
  let* si := lift (row_sum (A sc) i (seq 0 (length (c sc))) zero) in
  if gtb (fabs (si - ci)%f64) (lit 1 5) then
    let* nm := method_to_name method in
    print [ Str "Warning! Mismatch between c and A(i,:) "; Str "for i = ";
            Idx i; Str ", method = "; Str nm; Str "!\n" ]
  else ret tt.

Definition get_coefficients (method : Z) : M solver_coeffs :=
  let sc := default_coeffs in
  let sc := set_FSAL false sc in
  let* nm := method_to_name method in
  let sc := set_name nm sc in
  run print [ Str "Setting coeffs for method "; Str nm; Str "...\n" ] then
  let* sc :=
    match switch_case method with
    | None =>
      run print [ Str "Method "; Int method; Str " not supported!\n" ] then
      ret sc
    | Some m => ret (exec (case_body m) sc)
    end in
  run for_each (seq 0 (length (c sc))) (check_row method sc) then
  let sc := set_dt (lit 5 2) sc in
  ret sc.

End Catalogue.

(** ** The catalogue as process-wide state *)

Section Tables.
Context (hpp : irk_hpp).

(** The case labels of a [switch] are pairwise distinct, or the program
    does not compile. *)
Definition distinct_ids : Prop := Inj (=) (=) (method_id hpp).

(** Modelled from the spec: the strings of the tables, declared in irk.hpp
    which is not part of the sources at hand.  Section 4.1: "a closed
    bidirectional mapping between a stable string identifier and the
    internal identifier", so no two methods share a string. *)
Definition distinct_names : Prop := Inj (=) (=) (method_str hpp).

(** No enumerator is 0: the convention the caller in brusselator.cpp relies
    on when it tests [if (method)] ("method = 0 indicates that this method is
    not an irk").  irk.hpp, which fixes the enumerators, is not part of the
    sources at hand, so this is a hypothesis wherever it is used. *)
Definition nonzero_ids : Prop := forall m, method_id hpp m <> 0.

(** Modelled from the spec: the initial contents of rk_method_to_string,
    built in irk.hpp which is not part of the sources at hand: one entry per
    catalogued method (section 4.1, "a closed bidirectional mapping"). *)
Definition rk_method_to_string_init : gmap Z string :=
  list_to_map ((fun m => (method_id hpp m, method_str hpp m)) <$> all_methods).

(** Modelled from the spec: the initial contents of rk_string_to_method,
    built in irk.hpp which is not part of the sources at hand: the pairs of
    rk_method_to_string, turned around. *)
Definition rk_string_to_method_init : gmap string Z :=
  list_to_map ((fun m => (method_str hpp m, method_id hpp m)) <$> all_methods).

(** Modelled from the spec: the state at program start, the two tables as
    irk.hpp (not part of the sources at hand) builds them and nothing written
    to [std::cerr] yet. *)
Definition initial_globals : globals :=
  mk_globals rk_method_to_string_init rk_string_to_method_init [].

(** The calls that touch the state, and the states a process can be in. *)
Inductive call : Type :=
  | MethodToName (method : Z)
  | NameToMethod (nm : string)
  | GetCoefficients (method : Z).

Definition after_call (k : call) (g : globals) : option globals :=
  match k with
  | MethodToName method => snd <$> method_to_name method g
  | NameToMethod nm => snd <$> name_to_method nm g
  | GetCoefficients method => snd <$> get_coefficients hpp method g
  end.

Inductive reachable : globals -> Prop :=
  | reach_init : reachable initial_globals
  | reach_call k g g' :
      reachable g -> after_call k g = Some g' -> reachable g'.

(** What every reachable state keeps: each catalogued pair is in both
    tables, and any other entry holds the value [operator[]] inserted. *)
Definition tables_inv (g : globals) : Prop :=
  (forall m, rk_method_to_string g !! method_id hpp m = Some (method_str hpp m))
  /\ (forall m, rk_string_to_method g !! method_str hpp m = Some (method_id hpp m))
  /\ (forall nm id, rk_string_to_method g !! nm = Some id ->
        id = 0 \/ exists m, nm = method_str hpp m /\ id = method_id hpp m)
  /\ (forall id nm, rk_method_to_string g !! id = Some nm ->
        nm = ""%string \/ exists m, id = method_id hpp m /\ nm = method_str hpp m).

End Tables.

(** A computation keeps a property of the state. *)
Definition keeps (P : globals -> Prop) {T} (m : M T) : Prop :=
  forall g x g', P g -> m g = Some (x, g') -> P g'.

(** ** The row-sum invariant *)

(** The loop of [get_coefficients] stays silent on row [i]. *)
Definition quiet_row (sc : solver_coeffs) (i : nat) : bool :=
  match c sc !! i, row_sum (A sc) i (seq 0 (length (c sc))) zero with
  | Some ci, Some si => negb (gtb (fabs (si - ci)%f64) (lit 1 5))
  | _, _ => false
  end.

(** Row [i] of [A] sums to [c(i)] within [1e-5]. *)
Definition row_consistent (sc : solver_coeffs) (i : nat) : bool :=
  match c sc !! i, row_sum (A sc) i (seq 0 (n_cols (A sc))) zero with
  | Some ci, Some si => leb (fabs (si - ci)%f64) (lit 1 5)
  | _, _ => false
  end.

(** Every row of the tableau is consistent. *)
Definition row_sum_invariant (sc : solver_coeffs) : bool :=
  forallb (row_consistent sc) (seq 0 (n_rows (A sc))).

(** An instance of the declarations, for evaluating the functions: the
    enumerators numbered from 10 in the order of the [switch], each entered in
    the tables under its spelling; a default-constructed tableau has
    [order = order2 = 0], [FSAL = true] and [dt = 1.0]. *)
Definition enum_index (m : rk_methods) : Z :=
  match m with
  | EXPLICIT_EULER => 0 | RUNGE_KUTTA_4 => 1 | BOGACKI_SHAMPINE_32 => 2
  | CASH_KARP_54 => 3 | DORMAND_PRINCE_54 => 4 | FEHLBERG_54 => 5
  | IMPLICIT_EULER => 6 | IMPLICIT_MIDPOINT => 7 | LOBATTO_IIIA_21 => 8
  | LOBATTO_IIIC_21 => 9 | RADAU_IA_32 => 10 | RADAU_IIA_32 => 11
  | LOBATTO_IIIA_43 => 12 | LOBATTO_IIIC_43 => 13 | GAUSS_LEGENDRE_42 => 14
  | RADAU_IA_54 => 15 | RADAU_IIA_54 => 16 | GAUSS_LEGENDRE_63 => 17
  | LOBATTO_IIIA_65 => 18 | LOBATTO_IIIC_65 => 19
  end.

Definition enum_spelling (m : rk_methods) : string :=
  match m with
  | EXPLICIT_EULER => "EXPLICIT_EULER" | RUNGE_KUTTA_4 => "RUNGE_KUTTA_4"
  | BOGACKI_SHAMPINE_32 => "BOGACKI_SHAMPINE_32"
  | CASH_KARP_54 => "CASH_KARP_54" | DORMAND_PRINCE_54 => "DORMAND_PRINCE_54"
  | FEHLBERG_54 => "FEHLBERG_54"
  | IMPLICIT_EULER => "IMPLICIT_EULER" | IMPLICIT_MIDPOINT => "IMPLICIT_MIDPOINT"
  | LOBATTO_IIIA_21 => "LOBATTO_IIIA_21" | LOBATTO_IIIC_21 => "LOBATTO_IIIC_21"
  | RADAU_IA_32 => "RADAU_IA_32" | RADAU_IIA_32 => "RADAU_IIA_32"
  | LOBATTO_IIIA_43 => "LOBATTO_IIIA_43" | LOBATTO_IIIC_43 => "LOBATTO_IIIC_43"
  | GAUSS_LEGENDRE_42 => "GAUSS_LEGENDRE_42" | RADAU_IA_54 => "RADAU_IA_54"
  | RADAU_IIA_54 => "RADAU_IIA_54" | GAUSS_LEGENDRE_63 => "GAUSS_LEGENDRE_63"
  | LOBATTO_IIIA_65 => "LOBATTO_IIIA_65" | LOBATTO_IIIC_65 => "LOBATTO_IIIC_65"
  end.

Definition example_hpp : irk_hpp :=
  mk_irk_hpp (fun m => 10 + enum_index m) enum_spelling 0 0 true one.



(** ** Doubles of the step-size controller *)

Module X64.

(** A [double] with the special values of IEEE 754 and exact finite
    arithmetic: rounding, overflow and underflow of finite results are left
    out, and the two zeros are one ([Fin 0], read as [+0]: the errors and
    tolerances the controller divides by are norms). [Inf true] is
    [-inf]. *)
Inductive double : Type :=
  | NaN
  | Inf (neg : bool)
  | Fin (r : R).

Local Open Scope R_scope.

Definition Rneg (r : R) : bool := if Rlt_dec r 0 then true else false.
Definition Rpos (r : R) : bool := if Rlt_dec 0 r then true else false.
Definition Rzero (r : R) : bool := if Req_dec_T r 0 then true else false.

Definition zero : double := Fin 0.
Definition one : double := Fin 1.

(** Conversion of an [int]. *)
Definition of_int (z : Z) : double := Fin (IZR z).

(** [x * y] *)
Definition mul (x y : double) : double :=
  match x, y with
  | NaN, _ | _, NaN => NaN
  | Fin a, Fin b => Fin (a * b)
  | Fin a, Inf s | Inf s, Fin a =>
      if Rzero a then NaN else Inf (xorb s (Rneg a))
  | Inf s, Inf t => Inf (xorb s t)
  end.

(** [x / y]; a zero divisor is [+0]. *)
Definition div (x y : double) : double :=
  match x, y with
  | NaN, _ | _, NaN => NaN
  | Fin a, Fin b =>
      if Rzero b then (if Rzero a then NaN else Inf (Rneg a))
      else Fin (a / b)
  | Fin _, Inf _ => Fin 0
  | Inf s, Fin b => Inf (xorb s (Rneg b))
  | Inf _, Inf _ => NaN
  end.

(** [x < y] and [x <= y]: false as soon as one side is NaN. *)
Definition ltb (x y : double) : bool :=
  match x, y with
  | Fin a, Fin b => if Rlt_dec a b then true else false
  | Inf true, Fin _ | Fin _, Inf false | Inf true, Inf false => true
  | _, _ => false
  end.

Definition leb (x y : double) : bool :=
  match x, y with
  | Fin a, Fin b => if Rle_dec a b then true else false
  | Inf true, Fin _ | Fin _, Inf false => true
  | Inf s, Inf t => implb t s
  | _, _ => false
  end.

(** [std::min(a, b)], that is [(b < a) ? b : a]. *)
Definition min (a b : double) : double := if ltb b a then b else a.

(** The integer a real is, if it is one. *)
Definition as_integer (r : R) : option Z :=
  if Req_dec_T (IZR (Int_part r)) r then Some (Int_part r) else None.

Definition odd_integer (r : R) : bool :=
  match as_integer r with Some n => Z.odd n | None => false end.

(** libm's [pow(x, y)]: the special values as C Annex F.10.4.4 lists them,
    the real power [|x|^y = exp (y * ln |x|)] elsewhere. *)
Definition pow (x y : double) : double :=
  match x, y with
  | _, Fin e =>
      if Rzero e then one                      (* pow(x, 0) = 1, x NaN too *)
      else match x with
      | NaN => NaN
      | Fin a =>
          if Rpos a then Fin (Rpower a e)
          else if Rzero a then (if Rpos e then Fin 0 else Inf false)
          else match as_integer e with
               | Some n =>
                   Fin (if Z.odd n then - Rpower (- a) e else Rpower (- a) e)
               | None => NaN                   (* negative base *)
               end
      | Inf false => if Rpos e then Inf false else Fin 0
      | Inf true =>
          if Rpos e then Inf (odd_integer e) else Fin 0
      end
  | Fin a, NaN => if Rzero (a - 1) then one else NaN   (* pow(1, y) = 1 *)
  | _, NaN => NaN
  | NaN, Inf _ => NaN
  | Fin a, Inf s =>
      if Rzero (Rabs a - 1) then one           (* pow(+-1, +-inf) = 1 *)
      else if xorb s (if Rlt_dec (Rabs a) 1 then true else false)
           then Fin 0 else Inf false
  | Inf _, Inf s => if s then Fin 0 else Inf false
  end.

End X64.

Declare Scope x64_scope.
Delimit Scope x64_scope with x64.
Bind Scope x64_scope with X64.double.
Notation "x * y" := (X64.mul x y) : x64_scope.
Notation "x / y" := (X64.div x y) : x64_scope.

(** ** get_better_time_step *)

(** [struct solver_options]: the controller receives it and reads nothing
    from it. *)
Record solver_options : Type := mk_solver_options {
  newton_opts : option unit
}.

(** [int] addition.  A sum of two [int]s that does not fit is undefined in
    C++; the model wraps it, as two's complement hardware does. *)
Definition int32 (z : Z) : Z := (z + 2 ^ 31) mod 2 ^ 32 - 2 ^ 31.
Definition int_add (x y : Z) : Z := int32 (x + y).

(** The operations on [double] the controller is written with.  [d_pow] is
    libm's [pow], [d_min] is [std::min], [d_of_int] the conversion of an
    [int]. *)
Class Doubles (T : Type) : Type := mk_Doubles {
  d_mul : T -> T -> T;
  d_div : T -> T -> T;
  d_pow : T -> T -> T;
  d_min : T -> T -> T;
  d_of_int : Z -> T
}.

(** The extended reals: exact finite arithmetic, real powers. *)
#[global] Instance X64_doubles : Doubles X64.double :=
  mk_Doubles X64.double X64.mul X64.div X64.pow X64.min X64.of_int.

(** [std::min(a, b)] on binary64, that is [(b < a) ? b : a]. *)
Definition min64 (a b : F64.double) : F64.double :=
  if F64.ltb b a then b else a.

(** Binary64, the arithmetic of the program: [*], [/] and the conversion
    round as IEEE 754 says.  libm's [pow] is not part of the repository and
    the C standard fixes its special values only, so it is a parameter. *)
Definition B64_doubles (pow : F64.double -> F64.double -> F64.double)
    : Doubles F64.double :=
  mk_Doubles F64.double F64.mul F64.div pow min64 F64.of_Z.

(** [sc.order + sc.order2] and [std::min(sc.order, sc.order2)] are computed
    on [int]s and then converted. *)
Definition get_better_time_step {T : Type} {D : Doubles T}
    (dt_old err old_err tol : T)
    (newton_iters : Z) (opts : solver_options) (sc : solver_coeffs)
    (max_dt : T) : T :=
  let alpha := d_of_int (int_add (order sc) (order2 sc)) in
  let min_order := d_of_int (Z.min (order sc) (order2 sc)) in
  let beta := min_order in
  let frac1 := d_div tol err in
  let frac2 := d_div old_err tol in
  let dt_new := d_mul (d_mul dt_old (d_pow frac1 alpha)) (d_pow frac2 beta) in
  d_min dt_new max_dt.

(** The controller as section 4.2 of the specification words it:
    [dt_new = dt_old * (tol/err)^a * (err_prev/tol)^b] with
    [a = 1/(order+order2)] and [b = min(order,order2)/(order+order2)],
    clamped to [max_dt]. *)
Definition next_step_spec (dt_old err err_prev tol : X64.double)
    (ord ord2 : Z) (max_dt : X64.double) : X64.double :=
  let a := (X64.of_int 1 / X64.of_int (ord + ord2))%x64 in
  let b := (X64.of_int (Z.min ord ord2) / X64.of_int (ord + ord2))%x64 in
  X64.min (dt_old * X64.pow (tol / err) a * X64.pow (err_prev / tol) b)%x64 max_dt.

(** ** Binary64 values of the controller *)

(** The two bits that [SpecFloat]'s right shift keeps of what it shifted
    out: set as soon as a nonzero bit was lost. *)
Definition sticky (mrs : shr_record) : bool := shr_r mrs || shr_s mrs.

(** [b] is [a] shifted right by [k] bits. *)
Definition shifted (k : Z) (a b : shr_record) : Prop :=
  shr_m b = shr_m a / 2 ^ k
  /\ 0 <= shr_m b
  /\ (sticky b = true -> sticky a = true \/ shr_m a mod 2 ^ k <> 0).

(** [r] is a zero, or positive with a value of at most [mx * 2^ex]
    (mantissa [m], exponent [e], value [m * 2^e]). *)
Definition below (mx : positive) (ex : Z) (r : double) : Prop :=
  match r with
  | S754_zero _ => True
  | S754_finite false m e => e <= ex /\ Zpos m <= Zpos mx * 2 ^ (ex - e)
  | _ => False
  end.

(** Mantissa and exponent of a binary64 number in normal form. *)
Definition canonical (m : positive) (e : Z) : Prop :=
  fexp prec emax (Zpos (digits2_pos m) + e) = e /\ e <= emax - prec.

(** [x] is a finite binary64 number greater than 0. *)
Definition positive_finite (x : double) : bool :=
  match x with
  | S754_finite false _ _ => valid_binary prec emax x
  | _ => false
  end.

(** [x] is a zero, or positive and at most the positive finite [y]. *)
Definition no_larger (x y : double) : Prop :=
  match y with
  | S754_finite false my ey => below my ey x
  | _ => False
  end.

(** [0 <= x <= 1]. *)
Definition in_unit_interval (x : double) : Prop := no_larger x one.

(** [+0], a positive finite number or [+inf]. *)
Definition nonnegative (x : double) : Prop :=
  match x with
  | S754_zero false | S754_finite false _ _ | S754_infinity false => True
  | _ => False
  end.

(** A positive finite number or [+inf]. *)
Definition strictly_positive (x : double) : Prop :=
  match x with
  | S754_finite false _ _ | S754_infinity false => True
  | _ => False
  end.

(** What is taken from libm's [pow].  C Annex F.10.4.4 has
    [pow(x, +-0) = 1] for every [x], NaN included, and [pow(+inf, y) = +inf]
    for [y > 0].  For a base in [[0, 1]] and an exponent [y >= 0] the exact
    power lies in [[0, 1]]; 0 and 1 are binary64 numbers, so a [pow] whose
    error stays under one unit in the last place returns a value in [[0, 1]]
    as well. *)
Record libm_pow (pow : double -> double -> double) : Prop := mk_libm_pow {
  libm_zero_exponent : forall (x : double) (s : bool), pow x (S754_zero s) = one;
  libm_inf_base : forall y : double,
    strictly_positive y -> pow (S754_infinity false) y = S754_infinity false;
  libm_unit_interval : forall x y : double,
    in_unit_interval x -> nonnegative y -> in_unit_interval (pow x y)
}.

(** [x * x * ... * x], [n] factors, multiplied up from [1.0] in binary64. *)
Fixpoint pow_iter (x : double) (n : nat) : double :=
  match n with
  | O => one
  | S k => mul (pow_iter x k) x
  end.

(** The integer part of a positive finite [y]. *)
Definition truncate (y : double) : nat :=
  match y with
  | S754_finite false m (Zneg k) => Z.to_nat (Zpos m / 2 ^ Zpos k)
  | S754_finite false m e => Z.to_nat (Zpos m * 2 ^ e)
  | _ => O
  end.

(** A [pow] to evaluate the controller with at concrete inputs.  It has the
    special values of Annex F for a base in [[0, +inf]] and an exponent that
    is a zero, positive or [+inf], and for a positive integral exponent it
    multiplies the base up in binary64, which is the exact power, and so
    what libm returns, whenever every product is exact.  It cuts the
    fraction of an exponent off and returns NaN elsewhere: it is not libm's
    [pow] there. *)
Definition pow_standin (x y : double) : double :=
  match y with
  | S754_zero _ => one
  | S754_finite false _ _ =>
      match x with
      | S754_zero _ | S754_finite false _ _ => pow_iter x (truncate y)
      | S754_infinity false => S754_infinity false
      | _ => S754_nan
      end
  | S754_infinity false =>
      if ltb (fabs x) one then S754_zero false
      else if ltb one (fabs x) then S754_infinity false
      else match x with S754_nan => S754_nan | _ => one end
  | _ => S754_nan
  end.

(** The state [g'] holds everything [g] holds: no key of either table is
    gone or remapped, and [std::cerr] has only been appended to. *)
Definition extends (g g' : globals) : Prop :=
  rk_method_to_string g ⊆ rk_method_to_string g'
  /\ rk_string_to_method g ⊆ rk_string_to_method g'
  /\ cerr g `prefix_of` cerr g'.

(** ** Further checks on a tableau *)

(** The entries of a vector added up from [0.0], first to last. *)
Definition vec_sum (v : vec) : double := fold_left add v zero.

(** The entries add up to 1 within [1e-15]. *)
Definition sums_to_one (v : vec) : bool :=
  leb (fabs (vec_sum v - one)%f64) (lit 1 15).

(** [M(i,j) == 0.0] *)
Definition entry_is_zero (M : mat) (i j : nat) : bool :=
  match mat_at M i j with
  | Some x => SFeqb x zero
  | None => false
  end.

(** Every entry on or above the diagonal is zero: stage [i] uses the stages
    before it only. *)
Definition strictly_lower (M : mat) : bool :=
  forallb (fun i =>
    forallb (fun j => (j <? i)%nat || entry_is_zero M i j) (seq 0 (n_cols M)))
    (seq 0 (n_rows M)).

(** Every entry on or below the diagonal is zero. *)
Definition strictly_upper (M : mat) : bool :=
  forallb (fun i =>
    forallb (fun j => (i <? j)%nat || entry_is_zero M i j) (seq 0 (n_cols M)))
    (seq 0 (n_rows M)).

(** The cases above the comment [// IMPLICIT METHODS:] of the [switch]. *)
Definition explicit_case (m : rk_methods) : bool :=
  match m with
  | EXPLICIT_EULER | RUNGE_KUTTA_4 | BOGACKI_SHAMPINE_32 | CASH_KARP_54
  | DORMAND_PRINCE_54 | FEHLBERG_54 => true
  | _ => false
  end.

(** ** The Brusselator of brusselator.cpp *)

(** The operations [brusselator::fun] and [brusselator::jac] are written
    with.  On [F64.double] they are the program's; on [R] they give the
    function the program approximates. *)
Class Arith (T : Type) : Type := mk_Arith {
  ar_add : T -> T -> T;
  ar_sub : T -> T -> T;
  ar_mul : T -> T -> T;
  ar_opp : T -> T;
  ar_int : Z -> T;          (* an [int], or a literal [n.0] *)
  ar_dec : Z -> Z -> T      (* the decimal literal [m / 10^k] *)
}.

#[global] Instance Arith_F64 : Arith F64.double :=
  mk_Arith F64.double F64.add F64.sub F64.mul F64.opp F64.of_Z F64.lit.

#[global] Instance Arith_R : Arith R :=
  mk_Arith R Rplus Rminus Rmult Ropp IZR
           (fun m k => (IZR m / IZR (10 ^ k))%R).

Declare Scope arith_scope.
Delimit Scope arith_scope with ar.
Notation "x + y" := (ar_add x y) : arith_scope.
Notation "x - y" := (ar_sub x y) : arith_scope.
Notation "x * y" := (ar_mul x y) : arith_scope.
Notation "- x" := (ar_opp x) : arith_scope.

Module Brusselator.

(** [struct brusselator]: its two data members. *)
Record brusselator (T : Type) : Type := mk_brusselator { a : T; b : T }.
Arguments mk_brusselator {T} _ _.
Arguments a {T} _.
Arguments b {T} _.

Section Functor.
Context {T : Type} `{Arith T}.
Local Open Scope arith_scope.

(** [fun(t, Y)].  [Y[0]] and [Y[1]] are read without a bounds check; [None]
    is a read past the end of [Y]. *)
Definition fun_ (br : brusselator T) (t : T) (Y : list T) : option (list T) :=
  y0 ← Y !! 0%nat;
  y1 ← Y !! 1%nat;
  Some [ a br + y0 * y0 * y1 - b br * y0 - y0;
         b br * y0 - y0 * y0 * y1 ].

(** [jac(t, Y)] *)
Definition jac (br : brusselator T) (t : T) (Y : list T)
    : option (list (list T)) :=
  y0 ← Y !! 0%nat;
  y1 ← Y !! 1%nat;
  Some [ [ ar_int 2 * y0 * y1 - b br - ar_int 1; y0 * y0 ];
         [ b br - ar_int 2 * y0 * y1; - y0 * y0 ] ].

(** The parameters and the initial value [main] sets:
    [a = 2.0], [b = a*a + 2.5], [Y0 = {2.0, 2.0}]. *)
Definition main_brus : brusselator T :=
  let a0 := ar_int 2 in
  mk_brusselator a0 (a0 * a0 + ar_dec 25 1).

Definition main_Y0 : list T := [ ar_int 2; ar_int 2 ].

End Functor.

(** Component [i] of a vector result and entry [(i,j)] of a matrix result,
    0 where there is none. *)
Definition component (o : option (list R)) (i : nat) : R :=
  default 0%R (o ≫= fun v => v !! i).

Definition entry (o : option (list (list R))) (i j : nat) : R :=
  default 0%R (o ≫= fun m => m !! i ≫= fun row => row !! j).

End Brusselator.

(** * Properties *)

(** ** Literals *)

Example third_bits : (#1 / #3)%f64 = S754_finite false 6004799503160661 (-54).
Proof. vm_compute. reflexivity. Qed.

Example half_bits : lit 5 1 = S754_finite false 4503599627370496 (-53).
Proof. vm_compute. reflexivity. Qed.

Example tolerance_bits : lit 1 5 = S754_finite false 5902958103587057 (-69).
Proof. vm_compute. reflexivity. Qed.

(** ** The monad and the switch *)

Lemma in_all_methods (m : rk_methods) : In m all_methods.
Proof. destruct m; simpl; tauto. Qed.

Lemma NoDup_all_methods : NoDup all_methods.
Proof. apply (bool_decide_unpack _). vm_compute. reflexivity. Qed.

Lemma switch_case_label (hpp : irk_hpp) (m : rk_methods) :
  distinct_ids hpp -> switch_case hpp (method_id hpp m) = Some m.
Proof.
  intros Hinj. unfold switch_case.
  destruct (find _ all_methods) as [m'|] eqn:Hfind.
  - apply find_some in Hfind as [_ Heq].
    apply Z.eqb_eq in Heq. apply Hinj in Heq. congruence.
  - apply find_none with (x := m) in Hfind; [|apply in_all_methods].
    apply Z.eqb_neq in Hfind. congruence.
Qed.

Lemma switch_case_default (hpp : irk_hpp) (method : Z) :
  (forall m, method_id hpp m <> method) -> switch_case hpp method = None.
Proof.
  intros Hne. unfold switch_case.
  destruct (find _ all_methods) as [m'|] eqn:Hfind; [|reflexivity].
  apply find_some in Hfind as [_ Heq].
  apply Z.eqb_eq in Heq. destruct (Hne m' Heq).
Qed.

Lemma for_each_quiet (idx : list nat) (body : nat -> M unit) (g : globals) :
  (forall i, In i idx -> body i g = Some (tt, g)) ->
  for_each idx body g = Some (tt, g).
Proof.
  induction idx as [|i rest IH]; intros Hbody; simpl.
  - reflexivity.
  - unfold bind. rewrite Hbody by (left; reflexivity).
    apply IH. intros j Hj. apply Hbody. right. exact Hj.
Qed.

Lemma check_row_quiet (method : Z) (sc : solver_coeffs) (i : nat) (g : globals) :
  quiet_row sc i = true -> check_row method sc i g = Some (tt, g).
Proof.
  unfold quiet_row, check_row, bind, lift.
  destruct (c sc !! i) as [ci|]; [|discriminate].
  destruct (row_sum _ _ _ _) as [si|]; [|discriminate].
  simpl. intros Hq. apply negb_true_iff in Hq. rewrite Hq. reflexivity.
Qed.

(** What [operator[]] returns and leaves behind. *)
Lemma index_or_insert_spec `{Countable K} {V} (k : K) (dflt : V) (m : gmap K V) :
  index_or_insert k dflt m
  = (default dflt (m !! k), <[k := default dflt (m !! k)]> m).
Proof.
  unfold index_or_insert. destruct (m !! k) as [v|] eqn:Hk; simpl.
  - rewrite insert_id by exact Hk. reflexivity.
  - reflexivity.
Qed.

Lemma method_to_name_spec (method : Z) (g : globals) :
  method_to_name method g
  = Some (default ""%string (rk_method_to_string g !! method),
          mk_globals
            (<[method := default ""%string (rk_method_to_string g !! method)]>
               (rk_method_to_string g))
            (rk_string_to_method g) (cerr g)).
Proof. unfold method_to_name. rewrite index_or_insert_spec. reflexivity. Qed.

Lemma name_to_method_spec (nm : string) (g : globals) :
  name_to_method nm g
  = Some (default 0 (rk_string_to_method g !! nm),
          mk_globals (rk_method_to_string g)
            (<[nm := default 0 (rk_string_to_method g !! nm)]>
               (rk_string_to_method g))
            (cerr g)).
Proof. unfold name_to_method. rewrite index_or_insert_spec. reflexivity. Qed.

Lemma method_to_name_present (method : Z) (nm : string) (g : globals) :
  rk_method_to_string g !! method = Some nm ->
  method_to_name method g = Some (nm, g).
Proof.
  intros Hk. rewrite method_to_name_spec, Hk. simpl.
  rewrite insert_id by exact Hk. destruct g; reflexivity.
Qed.

Lemma name_to_method_present (nm : string) (id : Z) (g : globals) :
  rk_string_to_method g !! nm = Some id ->
  name_to_method nm g = Some (id, g).
Proof.
  intros Hk. rewrite name_to_method_spec, Hk. simpl.
  rewrite insert_id by exact Hk. destruct g; reflexivity.
Qed.

(** ** get_coefficients on a case label *)

(** The check loop finds nothing to warn about, whatever the method: every
    difference [|si - ci|] it looks at is below [1e-5]. *)
Lemma case_body_quiet (hpp : irk_hpp) (m : rk_methods) (nm : string) :
  let sc := exec (case_body m) (set_name nm (set_FSAL false (default_coeffs hpp))) in
  forallb (quiet_row sc) (seq 0 (length (c sc))) = true.
Proof. destruct m; vm_compute; reflexivity. Qed.

Lemma get_coefficients_case (hpp : irk_hpp) (m : rk_methods) (g : globals) :
  distinct_ids hpp ->
  exists nm g',
    get_coefficients hpp (method_id hpp m) g
    = Some (set_dt (lit 5 2)
              (exec (case_body m)
                 (set_name nm (set_FSAL false (default_coeffs hpp)))), g').
Proof.
  intros Hinj. unfold get_coefficients, bind.
  rewrite method_to_name_spec.
  set (nm := default ""%string (rk_method_to_string g !! method_id hpp m)).
  exists nm. cbn [print]. rewrite switch_case_label by exact Hinj.
  unfold ret at 1.
  set (sc := exec _ _). set (g1 := mk_globals _ _ _).
  exists g1.
  rewrite for_each_quiet; [reflexivity|].
  intros i Hi. apply check_row_quiet.
  pose proof (case_body_quiet hpp m nm) as Hq. cbv zeta in Hq.
  rewrite forallb_forall in Hq. apply Hq. exact Hi.
Qed.

Lemma example_distinct_ids : distinct_ids example_hpp.
Proof.
  intros m1 m2 Heq. cbn in Heq.
  assert (enum_index m1 = enum_index m2) as Hidx by lia.
  destruct m1, m2; (reflexivity || discriminate Hidx).
Qed.

(** Every case but [FEHLBERG_54] builds a tableau that passes
    [verify_solver_coeffs] and whose rows sum to [c] within [1e-5]. *)
Lemma case_body_well_formed (hpp : irk_hpp) (m : rk_methods) (nm : string) :
  m <> FEHLBERG_54 ->
  let sc := set_dt (lit 5 2)
              (exec (case_body m)
                 (set_name nm (set_FSAL false (default_coeffs hpp)))) in
  verify_solver_coeffs sc = true /\ row_sum_invariant sc = true.
Proof.
  intros Hm. destruct m; try (destruct (Hm eq_refl));
    split; vm_compute; reflexivity.
Qed.

Lemma get_coefficients_well_formed (hpp : irk_hpp) (m : rk_methods) (g : globals) :
  distinct_ids hpp -> m <> FEHLBERG_54 ->
  exists sc g',
    get_coefficients hpp (method_id hpp m) g = Some (sc, g')
    /\ verify_solver_coeffs sc = true
    /\ row_sum_invariant sc = true.
Proof.
  intros Hinj Hm.
  destruct (get_coefficients_case hpp m g Hinj) as (nm & g' & Hrun).
  eexists _, g'. split; [exact Hrun|].
  apply (case_body_well_formed hpp m nm Hm).
Qed.

(** C10, at the case that breaks it.  [get_coefficients] on [FEHLBERG_54]
    returns a tableau that [verify_solver_coeffs] rejects: [b] has 6 entries
    and [A] is 6 by 6, but the case never assigns [c], which stays empty. *)
Theorem fehlberg_fails_verify_solver_coeffs (hpp : irk_hpp) (g : globals) :
  distinct_ids hpp ->
  exists sc g',
    get_coefficients hpp (method_id hpp FEHLBERG_54) g = Some (sc, g')
    /\ verify_solver_coeffs sc = false
    /\ length (b sc) = 6%nat
    /\ n_rows (A sc) = 6%nat /\ n_cols (A sc) = 6%nat
    /\ c sc = [].
Proof.
  intros Hinj.
  destruct (get_coefficients_case hpp FEHLBERG_54 g Hinj) as (nm & g' & Hrun).
  eexists _, g'. split; [exact Hrun|].
  repeat split; vm_compute; reflexivity.
Qed.

Lemma fehlberg_fails_verify_solver_coeffs_witness :
  exists sc g',
    get_coefficients example_hpp 15 (initial_globals example_hpp) = Some (sc, g')
    /\ verify_solver_coeffs sc = false
    /\ length (b sc) = 6%nat
    /\ n_rows (A sc) = 6%nat /\ n_cols (A sc) = 6%nat
    /\ c sc = [].
Proof.
  exact (fehlberg_fails_verify_solver_coeffs example_hpp
           (initial_globals example_hpp) example_distinct_ids).
Defined.

(** C2, at the case that breaks it.  The tableau [get_coefficients] returns
    for [FEHLBERG_54] does not satisfy the row-sum invariant: [A] has six
    rows and [c] has no entry to compare any of them with.  The check loop
    runs [c.size() = 0] times, so it prints no warning either: the only text
    on [std::cerr] is the announcement. *)
Theorem fehlberg_breaks_row_sum_invariant (hpp : irk_hpp) (g : globals) :
  distinct_ids hpp ->
  exists sc g',
    get_coefficients hpp (method_id hpp FEHLBERG_54) g = Some (sc, g')
    /\ row_sum_invariant sc = false
    /\ n_rows (A sc) = 6%nat /\ c sc = []
    /\ cerr g' = cerr g ++ [ Str "Setting coeffs for method "; Str (name sc);
                             Str "...\n" ].
Proof.
  intros Hinj. unfold get_coefficients, bind.
  rewrite method_to_name_spec. cbn [print].
  rewrite switch_case_label by exact Hinj. unfold ret at 1.
  set (nm := default ""%string _).
  set (sc := exec _ _). set (g1 := mk_globals _ _ _).
  assert (c sc = []) as Hc by (vm_compute; reflexivity).
  rewrite Hc. cbn [length seq for_each]. unfold ret.
  eexists _, g1. split; [reflexivity|].
  repeat split; try (vm_compute; reflexivity).
Qed.

Lemma fehlberg_breaks_row_sum_invariant_witness :
  exists sc g',
    get_coefficients example_hpp 15 (initial_globals example_hpp) = Some (sc, g')
    /\ row_sum_invariant sc = false
    /\ n_rows (A sc) = 6%nat /\ c sc = []
    /\ cerr g' = [ Str "Setting coeffs for method "; Str (name sc); Str "...\n" ].
Proof.
  exact (fehlberg_breaks_row_sum_invariant example_hpp
           (initial_globals example_hpp) example_distinct_ids).
Defined.

(** ** get_coefficients on an identifier that is no case label *)

(** C6.  For an identifier that matches no case of the [switch],
    [get_coefficients] returns normally, with the tableau left as it was
    constructed: [A], [b], [b2] and [c] empty, [order] and [order2]
    untouched, [FSAL = false], [dt = 0.05], and [name] whatever
    [method_to_name] gave.  On [std::cerr] it leaves the announcement followed
    by the warning "Method <id> not supported!". *)
Theorem get_coefficients_unsupported (hpp : irk_hpp) (method : Z) (g : globals) :
  (forall m, method_id hpp m <> method) ->
  exists sc g',
    get_coefficients hpp method g = Some (sc, g')
    /\ A sc = [] /\ b sc = [] /\ c sc = [] /\ b2 sc = []
    /\ order sc = order_default hpp /\ order2 sc = order2_default hpp
    /\ FSAL sc = false /\ dt sc = lit 5 2
    /\ name sc = default ""%string (rk_method_to_string g !! method)
    /\ cerr g' = cerr g ++ [ Str "Setting coeffs for method "; Str (name sc);
                             Str "...\n";
                             Str "Method "; Int method; Str " not supported!\n" ]
    /\ (forall m sc', exec (case_body m) sc' <> sc).
Proof.
  intros Hne. unfold get_coefficients, bind.
  rewrite method_to_name_spec. cbn [print].
  rewrite (switch_case_default hpp method Hne).
  cbn [print bind ret default_coeffs set_FSAL set_name c length seq for_each].
  unfold bind, ret. cbn.
  eexists _, _. split; [reflexivity|]. cbn.
  repeat split; try reflexivity.
  - rewrite <- app_assoc. reflexivity.
  - intros m sc' Heq. apply (f_equal (fun s => length (b s))) in Heq.
    destruct m; vm_compute in Heq; discriminate Heq.
Qed.

Lemma get_coefficients_unsupported_witness :
  exists sc g',
    get_coefficients example_hpp 0 (initial_globals example_hpp) = Some (sc, g')
    /\ A sc = [] /\ b sc = [] /\ c sc = [] /\ b2 sc = []
    /\ order sc = 0 /\ order2 sc = 0
    /\ FSAL sc = false /\ dt sc = lit 5 2
    /\ name sc = ""%string
    /\ cerr g' = [ Str "Setting coeffs for method "; Str (name sc); Str "...\n";
                   Str "Method "; Int 0; Str " not supported!\n" ]
    /\ (forall m sc', exec (case_body m) sc' <> sc).
Proof.
  apply (get_coefficients_unsupported example_hpp 0 (initial_globals example_hpp)).
  intros m. cbn. destruct m; cbn; lia.
Defined.

(** ** The two tables in every reachable state *)

Section TableInvariant.
Context (hpp : irk_hpp).
Hypothesis ids : distinct_ids hpp.
Hypothesis names : distinct_names hpp.

Lemma init_method_to_string (id : Z) (nm : string) :
  rk_method_to_string_init hpp !! id = Some nm
  <-> exists m, id = method_id hpp m /\ nm = method_str hpp m.
Proof.
  unfold rk_method_to_string_init.
  rewrite <- elem_of_list_to_map.
  - rewrite list_elem_of_fmap. split.
    + intros (m & Heq & _). exists m. split; congruence.
    + intros (m & -> & ->). exists m. split; [reflexivity|].
      apply list_elem_of_In, in_all_methods.
  - rewrite <- list_fmap_compose.
    pose proof ids as Hinj. unfold distinct_ids in Hinj.
    apply (NoDup_fmap_2 (method_id hpp)), NoDup_all_methods.
Qed.

Lemma init_string_to_method (nm : string) (id : Z) :
  rk_string_to_method_init hpp !! nm = Some id
  <-> exists m, nm = method_str hpp m /\ id = method_id hpp m.
Proof.
  unfold rk_string_to_method_init.
  rewrite <- elem_of_list_to_map.
  - rewrite list_elem_of_fmap. split.
    + intros (m & Heq & _). exists m. split; congruence.
    + intros (m & -> & ->). exists m. split; [reflexivity|].
      apply list_elem_of_In, in_all_methods.
  - rewrite <- list_fmap_compose.
    pose proof names as Hinj. unfold distinct_names in Hinj.
    apply (NoDup_fmap_2 (method_str hpp)), NoDup_all_methods.
Qed.

Lemma tables_inv_init : tables_inv hpp (initial_globals hpp).
Proof.
  unfold tables_inv, initial_globals. cbn. repeat split.
  - intros m. apply init_method_to_string. eauto.
  - intros m. apply init_string_to_method. eauto.
  - intros nm id Hk. right. apply init_string_to_method. exact Hk.
  - intros id nm Hk. right. apply init_method_to_string. exact Hk.
Qed.

Lemma keeps_ret {T} (P : globals -> Prop) (x : T) : keeps P (ret x).
Proof. intros g y g' HP Hrun. unfold ret in Hrun. congruence. Qed.

Lemma keeps_lift {T} (P : globals -> Prop) (o : option T) : keeps P (lift o).
Proof.
  intros g y g' HP Hrun. destruct o; cbn in Hrun; [|discriminate].
  unfold ret in Hrun. congruence.
Qed.

Lemma keeps_bind {T U} (P : globals -> Prop) (m : M T) (k : T -> M U) :
  keeps P m -> (forall x, keeps P (k x)) -> keeps P (bind m k).
Proof.
  intros Hm Hk g y g' HP Hrun. unfold bind in Hrun.
  destruct (m g) as [[x g1]|] eqn:Hmg; [|discriminate].
  eapply Hk; [|exact Hrun]. eapply Hm; eauto.
Qed.

Lemma keeps_for_each (P : globals -> Prop) (idx : list nat) (body : nat -> M unit) :
  (forall i, keeps P (body i)) -> keeps P (for_each idx body).
Proof.
  intros Hbody. induction idx as [|i rest IH]; cbn.
  - apply keeps_ret.
  - apply keeps_bind; [apply Hbody|]. intros _. exact IH.
Qed.

Lemma keeps_print (ts : list token) : keeps (tables_inv hpp) (print ts).
Proof.
  intros g [] g' HP Hrun. unfold print in Hrun.
  injection Hrun as <-. exact HP.
Qed.

Lemma keeps_method_to_name (method : Z) :
  keeps (tables_inv hpp) (method_to_name method).
Proof.
  intros g nm g' (H1 & H2 & H3 & H4) Hrun.
  destruct (rk_method_to_string g !! method) as [v|] eqn:Hk.
  - rewrite (method_to_name_present _ _ _ Hk) in Hrun.
    injection Hrun as _ <-. repeat split; assumption.
  - rewrite method_to_name_spec, Hk in Hrun. cbn in Hrun.
    injection Hrun as _ <-. unfold tables_inv. cbn. repeat split.
    + intros m. rewrite lookup_insert_ne; [apply H1|].
      intros ->. rewrite H1 in Hk. discriminate.
    + exact H2.
    + exact H3.
    + intros id nm' Hid. destruct (decide (method = id)) as [->|Hne].
      * rewrite lookup_insert_eq in Hid. left. congruence.
      * rewrite lookup_insert_ne in Hid by exact Hne. eauto.
Qed.

Lemma keeps_name_to_method (nm : string) :
  keeps (tables_inv hpp) (name_to_method nm).
Proof.
  intros g id g' (H1 & H2 & H3 & H4) Hrun.
  destruct (rk_string_to_method g !! nm) as [v|] eqn:Hk.
  - rewrite (name_to_method_present _ _ _ Hk) in Hrun.
    injection Hrun as _ <-. repeat split; assumption.
  - rewrite name_to_method_spec, Hk in Hrun. cbn in Hrun.
    injection Hrun as _ <-. unfold tables_inv. cbn. repeat split.
    + exact H1.
    + intros m. rewrite lookup_insert_ne; [apply H2|].
      intros ->. rewrite H2 in Hk. discriminate.
    + intros nm' id' Hid. destruct (decide (nm = nm')) as [->|Hne].
      * rewrite lookup_insert_eq in Hid. left. congruence.
      * rewrite lookup_insert_ne in Hid by exact Hne. eauto.
    + exact H4.
Qed.

Lemma keeps_check_row (method : Z) (sc : solver_coeffs) (i : nat) :
  keeps (tables_inv hpp) (check_row method sc i).
Proof.
  unfold check_row.
  apply keeps_bind; [apply keeps_lift|]. intros ci.
  apply keeps_bind; [apply keeps_lift|]. intros si.
  destruct (gtb _ _).
  - apply keeps_bind; [apply keeps_method_to_name|]. intros nm.
    apply keeps_print.
  - apply keeps_ret.
Qed.

Lemma keeps_get_coefficients (method : Z) :
  keeps (tables_inv hpp) (get_coefficients hpp method).
Proof.
  unfold get_coefficients.
  apply keeps_bind; [apply keeps_method_to_name|]. intros nm.
  apply keeps_bind; [apply keeps_print|]. intros _.
  apply keeps_bind.
  - destruct (switch_case hpp method).
    + apply keeps_ret.
    + apply keeps_bind; [apply keeps_print|]. intros _. apply keeps_ret.
  - intros sc. apply keeps_bind.
    + apply keeps_for_each. intros i. apply keeps_check_row.
    + intros _. apply keeps_ret.
Qed.

Lemma reachable_tables_inv (g : globals) :
  reachable hpp g -> tables_inv hpp g.
Proof.
  induction 1 as [|k g g' _ IH Hcall].
  - apply tables_inv_init.
  - destruct k as [method|nm|method]; cbn in Hcall.
    + destruct (method_to_name method g) as [[x g1]|] eqn:Hrun;
        cbn in Hcall; [|discriminate]. injection Hcall as ->.
      eapply keeps_method_to_name; eauto.
    + destruct (name_to_method nm g) as [[x g1]|] eqn:Hrun;
        cbn in Hcall; [|discriminate]. injection Hcall as ->.
      eapply keeps_name_to_method; eauto.
    + destruct (get_coefficients hpp method g) as [[x g1]|] eqn:Hrun;
        cbn in Hcall; [|discriminate]. injection Hcall as ->.
      eapply keeps_get_coefficients; eauto.
Qed.

End TableInvariant.

Lemma example_distinct_names : distinct_names example_hpp.
Proof.
  intros m1 m2 Heq. cbn in Heq.
  destruct m1, m2; (reflexivity || discriminate Heq).
Qed.

Lemma example_nonzero_ids : nonzero_ids example_hpp.
Proof. intros m. cbn. destruct m; cbn; lia. Qed.

(** ** name_to_method and method_to_name *)

(** In every reachable state [name_to_method] returns 0 for a string that is
    no catalogued name and the method's identifier for a catalogued one.  So
    the result is 0 exactly when the name is not catalogued, or names a method
    whose enumerator is 0: whether the test against 0 tells "not found" from
    every method is decided by the enumerators alone. *)
Theorem name_to_method_result (hpp : irk_hpp) (g : globals) (nm : string) :
  distinct_ids hpp -> distinct_names hpp -> reachable hpp g ->
  exists id g',
    name_to_method nm g = Some (id, g')
    /\ ((forall m, nm <> method_str hpp m) -> id = 0)
    /\ (forall m, nm = method_str hpp m -> id = method_id hpp m)
    /\ (id = 0 <->
        (forall m, nm <> method_str hpp m)
        \/ exists m, nm = method_str hpp m /\ method_id hpp m = 0).
Proof.
  intros Hids Hnames Hreach.
  destruct (reachable_tables_inv hpp Hids Hnames g Hreach) as (_ & H2 & H3 & _).
  rewrite name_to_method_spec. eexists _, _. split; [reflexivity|].
  assert ((forall m, nm <> method_str hpp m) ->
          default 0 (rk_string_to_method g !! nm) = 0) as Hunknown.
  { intros Hnot. destruct (rk_string_to_method g !! nm) as [id|] eqn:Hk;
      [|reflexivity].
    destruct (H3 _ _ Hk) as [-> | (m & -> & _)]; [reflexivity|].
    destruct (Hnot m eq_refl). }
  assert (forall m, nm = method_str hpp m ->
          default 0 (rk_string_to_method g !! nm) = method_id hpp m) as Hknown.
  { intros m ->. rewrite H2. reflexivity. }
  split; [exact Hunknown|]. split; [exact Hknown|]. split.
  - intros Hzero.
    destruct (decide (Exists (fun m => nm = method_str hpp m) all_methods))
      as [Hex | Hnex].
    + right. apply Exists_exists in Hex as (m & _ & Hm).
      exists m. split; [exact Hm|]. rewrite <- (Hknown m Hm). exact Hzero.
    + left. intros m Hm. apply Hnex, Exists_exists.
      exists m. split; [apply list_elem_of_In, in_all_methods|exact Hm].
  - intros [Hnot | (m & Hm & Hid)].
    + apply Hunknown, Hnot.
    + rewrite (Hknown m Hm). exact Hid.
Qed.

Lemma name_to_method_result_witness :
  exists id g',
    name_to_method "NOT_A_METHOD" (initial_globals example_hpp) = Some (id, g')
    /\ ((forall m, "NOT_A_METHOD"%string <> method_str example_hpp m) -> id = 0)
    /\ (forall m, "NOT_A_METHOD"%string = method_str example_hpp m ->
                  id = method_id example_hpp m)
    /\ (id = 0 <->
        (forall m, "NOT_A_METHOD"%string <> method_str example_hpp m)
        \/ exists m, "NOT_A_METHOD"%string = method_str example_hpp m
                     /\ method_id example_hpp m = 0).
Proof.
  exact (name_to_method_result example_hpp (initial_globals example_hpp)
           "NOT_A_METHOD" example_distinct_ids example_distinct_names
           (reach_init example_hpp)).
Defined.

(** C8.  In every reachable state the two lookups are inverse to each other
    on the catalogue: the name of a catalogued identifier maps back to that
    identifier, the identifier of a catalogued name maps back to that name,
    and neither round trip changes the state. *)
Theorem name_method_roundtrip (hpp : irk_hpp) (g : globals) :
  distinct_ids hpp -> distinct_names hpp -> reachable hpp g ->
  (forall m,
     (let* nm := method_to_name (method_id hpp m) in name_to_method nm) g
     = Some (method_id hpp m, g))
  /\ (forall m,
     (let* id := name_to_method (method_str hpp m) in method_to_name id) g
     = Some (method_str hpp m, g)).
Proof.
  intros Hids Hnames Hreach.
  destruct (reachable_tables_inv hpp Hids Hnames g Hreach) as (H1 & H2 & _).
  split; intros m; unfold bind.
  - rewrite (method_to_name_present _ _ _ (H1 m)).
    apply name_to_method_present, H2.
  - rewrite (name_to_method_present _ _ _ (H2 m)).
    apply method_to_name_present, H1.
Qed.

Lemma name_method_roundtrip_witness :
  (forall m,
     (let* nm := method_to_name (method_id example_hpp m) in name_to_method nm)
       (initial_globals example_hpp)
     = Some (method_id example_hpp m, initial_globals example_hpp))
  /\ (forall m,
     (let* id := name_to_method (method_str example_hpp m) in method_to_name id)
       (initial_globals example_hpp)
     = Some (method_str example_hpp m, initial_globals example_hpp)).
Proof.
  exact (name_method_roundtrip example_hpp (initial_globals example_hpp)
           example_distinct_ids example_distinct_names (reach_init example_hpp)).
Defined.

(** C9, refuted.  Asked for a name the table does not hold, [name_to_method]
    returns 0 and leaves [rk_string_to_method] with one entry more. *)
Lemma name_to_method_inserts_unknown_name :
  exists g',
    name_to_method "NOT_A_METHOD" (initial_globals example_hpp) = Some (0, g')
    /\ rk_string_to_method g'
       <> rk_string_to_method (initial_globals example_hpp).
Proof.
  assert (rk_string_to_method (initial_globals example_hpp) !! "NOT_A_METHOD"%string
          = None) as Hnone by (vm_compute; reflexivity).
  rewrite name_to_method_spec, Hnone. cbn [default].
  eexists. split; [reflexivity|]. cbn [rk_string_to_method].
  intros Heq.
  apply (f_equal (fun tbl => tbl !! "NOT_A_METHOD"%string)) in Heq.
  rewrite lookup_insert_eq in Heq.
  change (rk_string_to_method_init example_hpp)
    with (rk_string_to_method (initial_globals example_hpp)) in Heq.
  rewrite Hnone in Heq. discriminate Heq.
Qed.

(** C9, as the code has it.  Each lookup returns, rewrites neither the other
    table nor [std::cerr], and leaves every other key of its own table as it
    was.  When the key is already there the whole state is unchanged; when it
    is not, the key is inserted with the value-initialised mapped value, 0
    for [name_to_method] and the empty string for [method_to_name], which is
    also what is returned. *)
Theorem lookups_frame (g : globals) (nm : string) (method : Z) :
  (exists id g',
     name_to_method nm g = Some (id, g')
     /\ rk_method_to_string g' = rk_method_to_string g
     /\ cerr g' = cerr g
     /\ (forall k, k <> nm ->
           rk_string_to_method g' !! k = rk_string_to_method g !! k)
     /\ (is_Some (rk_string_to_method g !! nm) -> g' = g)
     /\ (rk_string_to_method g !! nm = None ->
           id = 0
           /\ rk_string_to_method g' = <[nm := 0]> (rk_string_to_method g)))
  /\ (exists s g',
     method_to_name method g = Some (s, g')
     /\ rk_string_to_method g' = rk_string_to_method g
     /\ cerr g' = cerr g
     /\ (forall k, k <> method ->
           rk_method_to_string g' !! k = rk_method_to_string g !! k)
     /\ (is_Some (rk_method_to_string g !! method) -> g' = g)
     /\ (rk_method_to_string g !! method = None ->
           s = ""%string
           /\ rk_method_to_string g' = <[method := ""%string]> (rk_method_to_string g))).
Proof.
  split.
  - rewrite name_to_method_spec. eexists _, _. split; [reflexivity|]. cbn.
    split; [reflexivity|]. split; [reflexivity|]. split; [|split].
    + intros k Hk. apply lookup_insert_ne. congruence.
    + intros [id Hid]. rewrite Hid. cbn.
      rewrite insert_id by exact Hid. destruct g; reflexivity.
    + intros Hnone. rewrite Hnone. split; reflexivity.
  - rewrite method_to_name_spec. eexists _, _. split; [reflexivity|]. cbn.
    split; [reflexivity|]. split; [reflexivity|]. split; [|split].
    + intros k Hk. apply lookup_insert_ne. congruence.
    + intros [s Hs]. rewrite Hs. cbn.
      rewrite insert_id by exact Hs. destruct g; reflexivity.
    + intros Hnone. rewrite Hnone. split; reflexivity.
Qed.

(** ** Arithmetic of the controller *)

Section ControllerArithmetic.
Import X64.
Local Open Scope R_scope.

Lemma Rzero_eq (r : R) : r = 0 -> Rzero r = true.
Proof. intros ->. unfold Rzero. destruct (Req_dec_T 0 0); congruence. Qed.

Lemma Rzero_neq (r : R) : r <> 0 -> Rzero r = false.
Proof. intros Hr. unfold Rzero. destruct (Req_dec_T r 0); congruence. Qed.

Lemma Rpos_lt (r : R) : 0 < r -> Rpos r = true.
Proof. intros Hr. unfold Rpos. destruct (Rlt_dec 0 r); [reflexivity|lra]. Qed.

Lemma Rneg_ge (r : R) : 0 <= r -> Rneg r = false.
Proof. intros Hr. unfold Rneg. destruct (Rlt_dec r 0); [lra|reflexivity]. Qed.

Lemma ltb_lt (a b : R) : a < b -> ltb (Fin a) (Fin b) = true.
Proof. intros Hab. cbn. destruct (Rlt_dec a b); [reflexivity|lra]. Qed.

Lemma ltb_ge (a b : R) : b <= a -> ltb (Fin a) (Fin b) = false.
Proof. intros Hab. cbn. destruct (Rlt_dec a b); [lra|reflexivity]. Qed.

Lemma div_finite (a b : R) : b <> 0 -> div (Fin a) (Fin b) = Fin (a / b).
Proof. intros Hb. cbn. rewrite Rzero_neq by exact Hb. reflexivity. Qed.

(** [x / 0] for [x > 0]: the quotient is [+inf]. *)
Lemma div_by_zero (a : R) : 0 < a -> div (Fin a) (Fin 0) = Inf false.
Proof.
  intros Ha. cbn. rewrite Rzero_eq by reflexivity.
  rewrite Rzero_neq by lra. rewrite Rneg_ge by lra. reflexivity.
Qed.

Lemma mul_inf_pos (a : R) : 0 < a -> mul (Inf false) (Fin a) = Inf false.
Proof.
  intros Ha. cbn. rewrite Rzero_neq by lra. rewrite Rneg_ge by lra.
  reflexivity.
Qed.

Lemma mul_pos_inf (a : R) : 0 < a -> mul (Fin a) (Inf false) = Inf false.
Proof.
  intros Ha. cbn. rewrite Rzero_neq by lra. rewrite Rneg_ge by lra.
  reflexivity.
Qed.

Lemma mul_inf_zero : mul (Inf false) (Fin 0) = NaN.
Proof. cbn. rewrite Rzero_eq by reflexivity. reflexivity. Qed.

(** A positive base: [pow] is the real power, the exponent 0 and the
    base 1 included. *)
Lemma pow_pos_base (a e : R) : 0 < a -> pow (Fin a) (Fin e) = Fin (Rpower a e).
Proof.
  intros Ha. unfold pow, Rzero.
  destruct (Req_dec_T e 0) as [->|He].
  - rewrite Rpower_O by exact Ha. reflexivity.
  - rewrite Rpos_lt by exact Ha. reflexivity.
Qed.

Lemma pow_inf_pos_exp (e : R) : 0 < e -> pow (Inf false) (Fin e) = Inf false.
Proof.
  intros He. unfold pow. rewrite Rzero_neq by lra.
  rewrite Rpos_lt by exact He. reflexivity.
Qed.

Lemma pow_zero_pos_exp (e : R) : 0 < e -> pow (Fin 0) (Fin e) = Fin 0.
Proof.
  intros He. unfold pow. rewrite Rzero_neq by lra.
  unfold Rpos at 1. destruct (Rlt_dec 0 0); [lra|].
  rewrite Rzero_eq by reflexivity. rewrite Rpos_lt by exact He. reflexivity.
Qed.

Lemma Rpower_nat (a : R) (n : nat) : 0 < a -> Rpower a (IZR (Z.of_nat n)) = a ^ n.
Proof. intros Ha. rewrite <- INR_IZR_INZ. apply Rpower_pow, Ha. Qed.

Lemma Rpower_pos (a e : R) : 0 < Rpower a e.
Proof. unfold Rpower. apply exp_pos. Qed.

(** The controller on the extended reals, written out. *)
Lemma get_better_time_step_X64 (dt_old err old_err tol : double)
    (iters : Z) (opts : solver_options) (sc : solver_coeffs) (max_dt : double) :
  get_better_time_step dt_old err old_err tol iters opts sc max_dt
  = min (mul (mul dt_old
                (pow (div tol err) (of_int (int_add (order sc) (order2 sc)))))
           (pow (div old_err tol) (of_int (Z.min (order sc) (order2 sc)))))
        max_dt.
Proof. reflexivity. Qed.

(** The controller on finite positive errors and tolerance. *)
Lemma get_better_time_step_finite (dt_old err old_err tol : R)
    (iters : Z) (opts : solver_options) (sc : solver_coeffs) (max_dt : double) :
  0 < err -> 0 < old_err -> 0 < tol ->
  get_better_time_step (Fin dt_old) (Fin err) (Fin old_err) (Fin tol)
                       iters opts sc max_dt
  = min (Fin (dt_old
              * Rpower (tol / err) (IZR (int_add (order sc) (order2 sc)))
              * Rpower (old_err / tol) (IZR (Z.min (order sc) (order2 sc)))))
        max_dt.
Proof.
  intros He Ho Ht. rewrite get_better_time_step_X64. unfold of_int.
  rewrite !div_finite by lra.
  rewrite !pow_pos_base by (apply Rdiv_lt_0_compat; assumption).
  reflexivity.
Qed.

End ControllerArithmetic.

(** ** Rounding in binary64 *)

Section Rounding64.

Lemma digits2_pos_spec (p : positive) :
  2 ^ (Zpos (digits2_pos p) - 1) <= Zpos p < 2 ^ Zpos (digits2_pos p).
Proof.
  induction p as [p IH | p IH |]; cbn [digits2_pos].
  - rewrite Pos2Z.inj_succ, (Pos2Z.inj_xI p).
    replace (Z.succ (Zpos (digits2_pos p)) - 1)
      with (Z.succ (Zpos (digits2_pos p) - 1)) by lia.
    rewrite !Z.pow_succ_r by lia.
    generalize dependent (2 ^ (Zpos (digits2_pos p) - 1)).
    generalize (2 ^ Zpos (digits2_pos p)). intros; lia.
  - rewrite Pos2Z.inj_succ, (Pos2Z.inj_xO p).
    replace (Z.succ (Zpos (digits2_pos p)) - 1)
      with (Z.succ (Zpos (digits2_pos p) - 1)) by lia.
    rewrite !Z.pow_succ_r by lia.
    generalize dependent (2 ^ (Zpos (digits2_pos p) - 1)).
    generalize (2 ^ Zpos (digits2_pos p)). intros; lia.
  - cbn. lia.
Qed.

Lemma Zdigits2_le (m t : Z) : 0 <= m -> 0 <= t -> m < 2 ^ t -> Zdigits2 m <= t.
Proof.
  intros Hm Ht Hlt. destruct m as [|p|p]; cbn; try lia.
  pose proof (digits2_pos_spec p) as [Hlo _].
  assert (2 ^ (Zpos (digits2_pos p) - 1) < 2 ^ t) as Hpow by lia.
  apply Z.pow_lt_mono_r_iff in Hpow; lia.
Qed.

Lemma Zdigits2_gt (m t : Z) : 0 <= t -> 2 ^ t <= m -> t < Zdigits2 m.
Proof.
  intros Ht Hle.
  assert (0 < m) as Hm by (pose proof (Z.pow_pos_nonneg 2 t); lia).
  destruct m as [|p|p]; cbn; try lia.
  pose proof (digits2_pos_spec p) as [_ Hhi].
  assert (2 ^ t < 2 ^ Zpos (digits2_pos p)) as Hpow by lia.
  apply Z.pow_lt_mono_r_iff in Hpow; lia.
Qed.

Lemma fexp_mono (a b : Z) : a <= b -> fexp prec emax a <= fexp prec emax b.
Proof. unfold fexp. lia. Qed.

Lemma shifted_1 (a : shr_record) : 0 <= shr_m a -> shifted 1 a (shr_1 a).
Proof.
  destruct a as [m r s]. cbn [shr_m]. intros Hm. unfold shifted, sticky.
  change (2 ^ 1) with 2.
  destruct m as [|[p|p|]|]; cbn [shr_1 shr_m shr_r shr_s]; try lia.
  - repeat split; cbn; try lia; try (intros H; left; exact H).
  - rewrite (Pos2Z.inj_xI p). repeat split.
    + apply (Z.div_unique_pos _ _ _ 1); lia.
    + lia.
    + intros _. right. rewrite Z.add_comm, Z.mul_comm, Z.mod_add by lia.
      discriminate.
  - rewrite (Pos2Z.inj_xO p). repeat split.
    + apply (Z.div_unique_pos _ _ _ 0); lia.
    + lia.
    + cbn. intros H. left. exact H.
  - repeat split; cbn; try lia; try (intros _; right; discriminate).
Qed.

Lemma shifted_trans (j k : Z) (a b c : shr_record) :
  0 < j -> 0 < k -> 0 <= shr_m a ->
  shifted j a b -> shifted k b c -> shifted (j + k) a c.
Proof.
  intros Hj Hk Ha (Hb & Hb0 & Hbs) (Hc & Hc0 & Hcs).
  assert (0 < 2 ^ j) as Pj by (apply Z.pow_pos_nonneg; lia).
  assert (0 < 2 ^ k) as Pk by (apply Z.pow_pos_nonneg; lia).
  unfold shifted. rewrite Z.pow_add_r by lia. repeat split.
  - rewrite Hc, Hb. apply Z.div_div; lia.
  - exact Hc0.
  - intros Hs. rewrite Z.rem_mul_r by lia.
    pose proof (Z.mod_pos_bound (shr_m a) (2 ^ j) Pj) as B1.
    pose proof (Z.mod_pos_bound (shr_m a / 2 ^ j) (2 ^ k) Pk) as B2.
    destruct (Hcs Hs) as [Hsb | Hmod].
    + destruct (Hbs Hsb) as [Hsa | Hmod]; [left; exact Hsa|]. right. nia.
    + right. rewrite Hb in Hmod. nia.
Qed.

Lemma shifted_iter (n : positive) (a : shr_record) :
  0 <= shr_m a -> shifted (Zpos n) a (SpecFloat.iter_pos shr_1 n a).
Proof.
  revert a. induction n as [n IH | n IH |]; intros a Ha; cbn [SpecFloat.iter_pos].
  - pose proof (shifted_1 a Ha) as H1.
    assert (0 <= shr_m (shr_1 a)) as Ha1 by apply H1.
    pose proof (IH _ Ha1) as H2.
    assert (0 <= shr_m (SpecFloat.iter_pos shr_1 n (shr_1 a))) as Ha2 by apply H2.
    pose proof (IH _ Ha2) as H3.
    replace (Zpos n~1) with (1 + Zpos n + Zpos n) by lia.
    eapply shifted_trans; [lia | lia | exact Ha | | exact H3].
    eapply shifted_trans; [lia | lia | exact Ha | exact H1 | exact H2].
  - pose proof (IH _ Ha) as H2.
    assert (0 <= shr_m (SpecFloat.iter_pos shr_1 n a)) as Ha2 by apply H2.
    pose proof (IH _ Ha2) as H3.
    replace (Zpos n~0) with (Zpos n + Zpos n) by lia.
    eapply shifted_trans; [lia | lia | exact Ha | exact H2 | exact H3].
  - apply shifted_1, Ha.
Qed.

Lemma loc_of_shr_record_of_loc (m : Z) (l : location) :
  loc_of_shr_record (shr_record_of_loc m l) = l.
Proof. destruct l as [|[| |]]; reflexivity. Qed.

Lemma loc_inexact_sticky (mrs : shr_record) :
  loc_of_shr_record mrs <> loc_Exact -> sticky mrs = true.
Proof. destruct mrs as [m [|] [|]]; cbn; congruence. Qed.

Lemma sticky_of_loc (m : Z) (l : location) :
  sticky (shr_record_of_loc m l) = true -> l <> loc_Exact.
Proof. destruct l as [|[| |]]; cbn; congruence. Qed.

Lemma shr_m_of_loc (m : Z) (l : location) : shr_m (shr_record_of_loc m l) = m.
Proof. destruct l as [|[| |]]; reflexivity. Qed.

(** What [shr_fexp] leaves: the mantissa cut down to the exponent the format
    allots, and a location that is exact only if nothing was cut off. *)
Lemma shr_fexp_spec (m e : Z) (l : location) :
  0 <= m ->
  exists mrs e',
    shr_fexp prec emax m e l = (mrs, e')
    /\ e' = Z.max e (fexp prec emax (Zdigits2 m + e))
    /\ shr_m mrs = m / 2 ^ (e' - e)
    /\ 0 <= shr_m mrs
    /\ (loc_of_shr_record mrs <> loc_Exact ->
        l <> loc_Exact \/ m mod 2 ^ (e' - e) <> 0).
Proof.
  intros Hm. unfold shr_fexp, shr.
  destruct (fexp prec emax (Zdigits2 m + e) - e) as [|n|n] eqn:Hn.
  - eexists _, _. split; [reflexivity|].
    replace (Z.max e _) with e by lia.
    rewrite Z.sub_diag, Z.pow_0_r, Z.div_1_r, shr_m_of_loc.
    repeat split; try lia.
    rewrite loc_of_shr_record_of_loc. intros H. left. exact H.
  - pose proof (shifted_iter n (shr_record_of_loc m l)) as Hs.
    unfold shifted in Hs. rewrite !shr_m_of_loc in Hs.
    destruct (Hs Hm) as (H1 & H2 & H3).
    eexists _, _. split; [reflexivity|].
    replace (Z.max e _) with (e + Zpos n) by lia.
    replace (e + Zpos n - e) with (Zpos n) by lia.
    repeat split; try assumption; try lia.
    intros Hloc. apply loc_inexact_sticky in Hloc.
    destruct (H3 Hloc) as [Hl | Hmod]; [left; apply (sticky_of_loc m), Hl|].
    right. exact Hmod.
  - eexists _, _. split; [reflexivity|].
    replace (Z.max e _) with e by lia.
    rewrite Z.sub_diag, Z.pow_0_r, Z.div_1_r, shr_m_of_loc.
    repeat split; try lia.
    rewrite loc_of_shr_record_of_loc. intros H. left. exact H.
Qed.

Lemma round_nearest_even_bounds (m : Z) (l : location) :
  m <= round_nearest_even m l <= m + 1
  /\ (l = loc_Exact -> round_nearest_even m l = m).
Proof.
  destruct l as [|[| |]]; cbn; try (destruct (Z.even m)); split; try lia;
    intros; congruence.
Qed.

(** Cutting [m] down by [k] bits keeps it under a bound that is a multiple of
    [2^k]; strictly under when bits were lost or the bound was strict. *)
Lemma div_pow2_bound (m K k : Z) :
  0 <= k -> 0 <= m -> m <= K * 2 ^ k ->
  m / 2 ^ k <= K /\ (m < K * 2 ^ k \/ m mod 2 ^ k <> 0 -> m / 2 ^ k < K).
Proof.
  intros Hk Hm Hle.
  assert (0 < 2 ^ k) as P by (apply Z.pow_pos_nonneg; lia).
  split.
  - apply Z.div_le_upper_bound; lia.
  - intros [Hlt | Hmod].
    + apply Z.div_lt_upper_bound; lia.
    + pose proof (Z.div_mod m (2 ^ k) ltac:(lia)) as E.
      pose proof (Z.mod_pos_bound m (2 ^ k) P) as B. nia.
Qed.

(** The exponent [shr_fexp] settles on does not exceed that of a canonical
    bound. *)
Lemma exponent_bound (mx : positive) (ex m e : Z) :
  canonical mx ex -> 0 <= m -> e <= ex -> m <= Zpos mx * 2 ^ (ex - e) ->
  Z.max e (fexp prec emax (Zdigits2 m + e)) <= ex.
Proof.
  intros [Hc _] Hm He Hle.
  apply Z.max_lub; [exact He|]. rewrite <- Hc. apply fexp_mono.
  pose proof (digits2_pos_spec mx) as [_ Hhi].
  assert (0 < 2 ^ (ex - e)) as P by (apply Z.pow_pos_nonneg; lia).
  assert (Zdigits2 m <= Zpos (digits2_pos mx) + (ex - e)); [|lia].
  apply Zdigits2_le; [lia | lia |].
  rewrite Z.pow_add_r by lia. nia.
Qed.

Lemma pow2_split (a b : Z) : 0 <= a -> 0 <= b -> 2 ^ (a + b) = 2 ^ a * 2 ^ b.
Proof. intros. apply Z.pow_add_r; lia. Qed.

(** Rounding to nearest never carries a value past a representable bound. *)
Lemma round_aux_le (mx : positive) (ex m0 e0 : Z) (l0 : location) :
  canonical mx ex -> 0 <= m0 -> e0 <= ex ->
  m0 <= Zpos mx * 2 ^ (ex - e0) ->
  (l0 <> loc_Exact -> m0 < Zpos mx * 2 ^ (ex - e0)) ->
  below mx ex (binary_round_aux prec emax false m0 e0 l0).
Proof.
  intros Hcan Hm0 He0 Hle Hstrict.
  unfold binary_round_aux.
  destruct (shr_fexp_spec m0 e0 l0 Hm0) as (mrs1 & E1 & -> & HE1 & HM1 & HM1pos & Hloc1).
  pose proof (exponent_bound mx ex m0 e0 Hcan Hm0 He0 Hle) as HE1le.
  rewrite <- HE1 in HE1le.
  assert (e0 <= E1) as HE1ge by lia.
  assert (Zpos mx * 2 ^ (ex - e0) = Zpos mx * 2 ^ (ex - E1) * 2 ^ (E1 - e0)) as Hsplit.
  { replace (ex - e0) with ((ex - E1) + (E1 - e0)) by lia.
    rewrite pow2_split by lia. ring. }
  rewrite Hsplit in Hle, Hstrict.
  destruct (div_pow2_bound m0 (Zpos mx * 2 ^ (ex - E1)) (E1 - e0)
              ltac:(lia) Hm0 Hle) as [HM1le HM1lt].
  rewrite <- HM1 in HM1le, HM1lt.
  pose proof (round_nearest_even_bounds (shr_m mrs1) (loc_of_shr_record mrs1))
    as [[HM2lo HM2hi] HM2ex].
  set (M2 := round_nearest_even (shr_m mrs1) (loc_of_shr_record mrs1)) in *.
  assert (M2 <= Zpos mx * 2 ^ (ex - E1)) as HM2le.
  { destruct (loc_of_shr_record mrs1) eqn:Hl1.
    - rewrite HM2ex by reflexivity. exact HM1le.
    - assert (shr_m mrs1 < Zpos mx * 2 ^ (ex - E1)); [|lia].
      apply HM1lt. destruct Hloc1 as [Hl | Hmod]; [discriminate | |].
      + left. apply Hstrict, Hl.
      + right. exact Hmod. }
  assert (0 <= M2) as HM2pos by lia.
  destruct (shr_fexp_spec M2 E1 loc_Exact HM2pos) as (mrs2 & E2 & -> & HE2 & HM3 & HM3pos & _).
  pose proof (exponent_bound mx ex M2 E1 Hcan HM2pos HE1le HM2le) as HE2le.
  rewrite <- HE2 in HE2le.
  assert (E1 <= E2) as HE2ge by lia.
  assert (Zpos mx * 2 ^ (ex - E1) = Zpos mx * 2 ^ (ex - E2) * 2 ^ (E2 - E1)) as Hsplit2.
  { replace (ex - E1) with ((ex - E2) + (E2 - E1)) by lia.
    rewrite pow2_split by lia. ring. }
  rewrite Hsplit2 in HM2le.
  destruct (div_pow2_bound M2 (Zpos mx * 2 ^ (ex - E2)) (E2 - E1)
              ltac:(lia) HM2pos HM2le) as [HM3le _].
  rewrite <- HM3 in HM3le.
  destruct (shr_m mrs2) as [|m3|m3]; cbn [below]; [exact I | | lia].
  destruct Hcan as [_ Hb].
  replace (Z.leb E2 (emax - prec)) with true by (symmetry; apply Z.leb_le; lia).
  cbn [below]. split; [exact HE2le | exact HM3le].
Qed.

Lemma positive_finite_inv (x : double) :
  positive_finite x = true ->
  exists m e, x = S754_finite false m e /\ canonical m e.
Proof.
  destruct x as [| | |[|] m e]; cbn; try discriminate.
  unfold bounded, canonical_mantissa. intros H.
  apply andb_prop in H as [H1 H2].
  apply Z.eqb_eq in H1. apply Z.leb_le in H2.
  exists m, e. split; [reflexivity|]. split; assumption.
Qed.

Lemma canonical_digits (m : positive) (e : Z) :
  canonical m e ->
  Zpos (digits2_pos m) <= 53
  /\ (-1074 < e -> Zpos (digits2_pos m) = 53).
Proof. unfold canonical, fexp, emin, prec, emax. lia. Qed.

Lemma below_refl (m : positive) (e : Z) : below m e (S754_finite false m e).
Proof. cbn. rewrite Z.sub_diag. cbn. lia. Qed.

(** The order the comparison reads off sign, exponent and mantissa follows
    from the bound on the value. *)
Lemma leb_of_below (mx : positive) (ex : Z) (r : double) :
  below mx ex r -> leb r (S754_finite false mx ex) = true.
Proof.
  destruct r as [s| | |[|] m e]; cbn [below]; try tauto.
  intros [He Hm]. unfold leb, SFleb, SFcompare.
  destruct (Z.compare_spec e ex) as [-> | Hlt | Hgt]; [| reflexivity | lia].
  rewrite Z.sub_diag in Hm. change (2 ^ 0) with 1 in Hm.
  rewrite Pos.compare_cont_spec. cbn [Pos.switch_Eq].
  destruct (Pos.compare_spec m mx); try reflexivity. lia.
Qed.


(** A product with a factor in the unit interval stays under the bound of
    the other factor. *)
Lemma mul_below (mx : positive) (ex : Z) (r p : double) :
  canonical mx ex -> below mx ex r -> in_unit_interval p ->
  below mx ex (mul r p).
Proof.
  intros Hcan Hr Hp. unfold in_unit_interval, no_larger in Hp.
  change one with (S754_finite false 4503599627370496 (-52)) in Hp.
  destruct r as [s| | |[|] m e]; cbn [below] in Hr; try tauto;
    destruct p as [sp| | |[|] mp ep]; cbn [below] in Hp; try tauto;
    try exact I.
  destruct Hr as [He Hm]. destruct Hp as [Hep Hmp].
  unfold mul, SFmul. cbn [xorb].
  assert (0 < 2 ^ (ex - e)) by (apply Z.pow_pos_nonneg; lia).
  assert (0 < 2 ^ (-52 - ep)) by (apply Z.pow_pos_nonneg; lia).
  assert (Zpos (m * mp) <= Zpos mx * 2 ^ (ex - (e + ep))) as Hle.
  { replace (ex - (e + ep)) with ((ex - e) + (-52 - ep) + 52) by lia.
    rewrite !pow2_split by lia. rewrite Pos2Z.inj_mul.
    change (2 ^ 52) with 4503599627370496. nia. }
  apply round_aux_le; try assumption; try lia. congruence.
Qed.

Lemma leb_finite_inv (m1 m2 : positive) (e1 e2 : Z) :
  leb (S754_finite false m1 e1) (S754_finite false m2 e2) = true ->
  e1 < e2 \/ (e1 = e2 /\ Zpos m1 <= Zpos m2).
Proof.
  unfold leb, SFleb, SFcompare.
  destruct (Z.compare_spec e1 e2) as [-> | Hlt | Hgt]; try discriminate;
    [|left; lia].
  rewrite Pos.compare_cont_spec. cbn [Pos.switch_Eq].
  destruct (Pos.compare_spec m1 m2); try discriminate; intros _; right; lia.
Qed.


Lemma canonical_bounds (m : positive) (e : Z) :
  canonical m e ->
  -1074 <= e /\ Zpos m < 2 ^ 53 /\ (-1074 < e -> 2 ^ 52 <= Zpos m).
Proof.
  intros Hc. pose proof (canonical_digits m e Hc) as [Hd Hn].
  pose proof (digits2_pos_spec m) as [Hlo Hhi].
  split; [|split].
  - destruct Hc as [Hc _]. unfold fexp, emin, prec, emax in Hc. lia.
  - eapply Z.lt_le_trans; [exact Hhi|]. apply Z.pow_le_mono_r; lia.
  - intros He. rewrite (Hn He) in Hlo. exact Hlo.
Qed.



Lemma Zdigits2_mono (a b : Z) : 0 <= a -> a <= b -> Zdigits2 a <= Zdigits2 b.
Proof.
  intros Ha Hab. destruct b as [|p|p]; try lia.
  - replace a with 0 by lia. lia.
  - apply Zdigits2_le; [lia | cbn; lia |].
    pose proof (digits2_pos_spec p). cbn [Zdigits2]. lia.
Qed.

(** Cutting a mantissa down to the exponent the format allots keeps the
    magnitude, so a positive value stays positive. *)
Lemma shift_keeps_magnitude (m e : Z) :
  0 < m -> -1074 < Zdigits2 m + e ->
  let E := Z.max e (fexp prec emax (Zdigits2 m + e)) in
  0 < m / 2 ^ (E - e) /\ Zdigits2 m + e <= Zdigits2 (m / 2 ^ (E - e)) + E.
Proof.
  intros Hm Hmag E.
  destruct m as [|p|p]; try lia. cbn [Zdigits2] in *.
  pose proof (digits2_pos_spec p) as [Hlo _].
  set (d := Zpos (digits2_pos p)) in *.
  assert (1 <= d) as Hd by (subst d; lia).
  assert (0 <= E - e <= d - 1) as Hk.
  { subst E. unfold fexp, emin, prec, emax. lia. }
  set (k := E - e) in *.
  assert (0 < 2 ^ k) as Pk by (apply Z.pow_pos_nonneg; lia).
  assert (0 < 2 ^ (d - 1 - k)) as Pq by (apply Z.pow_pos_nonneg; lia).
  assert (2 ^ (d - 1 - k) <= Zpos p / 2 ^ k) as Hq.
  { apply Z.div_le_lower_bound; [exact Pk|].
    rewrite <- pow2_split by lia. replace (k + (d - 1 - k)) with (d - 1) by lia.
    exact Hlo. }
  split; [lia|].
  pose proof (Zdigits2_gt _ (d - 1 - k) ltac:(lia) Hq). lia.
Qed.

Lemma round_aux_pos (m0 e0 : Z) (l0 : location) :
  0 < m0 -> -1074 < Zdigits2 m0 + e0 ->
  strictly_positive (binary_round_aux prec emax false m0 e0 l0).
Proof.
  intros Hm0 Hmag. unfold binary_round_aux.
  destruct (shr_fexp_spec m0 e0 l0 ltac:(lia)) as (mrs1 & E1 & -> & HE1 & HM1 & _ & _).
  pose proof (shift_keeps_magnitude m0 e0 Hm0 Hmag) as [HM1pos HM1mag].
  rewrite <- HE1, <- HM1 in HM1pos, HM1mag.
  pose proof (round_nearest_even_bounds (shr_m mrs1) (loc_of_shr_record mrs1))
    as [[HM2lo _] _].
  set (M2 := round_nearest_even (shr_m mrs1) (loc_of_shr_record mrs1)) in *.
  assert (0 < M2) as HM2pos by lia.
  pose proof (Zdigits2_mono (shr_m mrs1) M2 ltac:(lia) HM2lo) as Hmono.
  destruct (shr_fexp_spec M2 E1 loc_Exact ltac:(lia)) as (mrs2 & E2 & -> & HE2 & HM3 & _ & _).
  pose proof (shift_keeps_magnitude M2 E1 HM2pos ltac:(lia)) as [HM3pos _].
  rewrite <- HE2, <- HM3 in HM3pos.
  destruct (shr_m mrs2) as [|m3|m3]; [lia | | lia].
  destruct (Z.leb E2 (emax - prec)); exact I.
Qed.


Lemma of_Z_pos (k : Z) : 0 < k -> strictly_positive (of_Z k).
Proof.
  intros Hk. destruct k as [|p|p]; try lia.
  unfold of_Z, binary_normalize, binary_round, shl_align.
  pose proof (Pos2Z.is_pos (digits2_pos p)) as Hd.
  assert (-1074 <= fexp prec emax (Zpos (digits2_pos p) + 0)) as Hf
    by (unfold fexp, emin, prec, emax; lia).
  destruct (fexp prec emax (Zpos (digits2_pos p) + 0) - 0) as [|d|d].
  - apply round_aux_pos; cbn [Zdigits2]; lia.
  - apply round_aux_pos; cbn [Zdigits2]; lia.
  - apply round_aux_pos; [lia|]. cbn [Zdigits2].
    pose proof (Pos2Z.is_pos (digits2_pos (Pos.iter xO p d))). lia.
Qed.


End Rounding64.

(** ** get_better_time_step *)

(** The inputs of the three evaluations below are small integers, and every
    intermediate value there (16, 65536, 2, 0, the infinities, NaN) is a
    binary64 number: rounding plays no part in them. *)

Section Controller.
Import X64.
Local Open Scope R_scope.

Lemma Rpower_16_4 : Rpower 16 4 = 65536.
Proof.
  change 4 with (IZR (Z.of_nat 4)). rewrite Rpower_nat by lra. simpl. lra.
Qed.

Lemma Rpower_16_quarter : Rpower 16 (1 / 4) = 2.
Proof.
  transitivity (Rpower 2 1); [|apply Rpower_1; lra].
  replace 16 with (Rpower 2 4).
  - rewrite Rpower_mult. f_equal. lra.
  - change 4 with (IZR (Z.of_nat 4)). rewrite Rpower_nat by lra. simpl. lra.
Qed.

(** C1, at an input that separates the code from the formula of the
    specification.  With the orders of [RUNGE_KUTTA_4] (4 and 0),
    [dt_old = err = old_err = 1], [tol = 16] and a [max_dt] out of the way,
    the code returns [16^4 = 65536]: its exponents are [order + order2] and
    [min(order, order2)].  The formula of section 4.2, with
    [1/(order+order2)] and [min(order,order2)/(order+order2)], gives
    [16^(1/4) = 2]. *)
Theorem controller_exponents_at_rk4 (hpp : irk_hpp) (iters : Z)
    (opts : solver_options) :
  get_better_time_step (Fin 1) (Fin 1) (Fin 1) (Fin 16) iters opts
    (exec (case_body RUNGE_KUTTA_4) (default_coeffs hpp)) (Fin 100000)
  = Fin 65536
  /\ next_step_spec (Fin 1) (Fin 1) (Fin 1) (Fin 16)
       (order (exec (case_body RUNGE_KUTTA_4) (default_coeffs hpp)))
       (order2 (exec (case_body RUNGE_KUTTA_4) (default_coeffs hpp)))
       (Fin 100000)
     = Fin 2.
Proof.
  set (sc := exec _ _).
  assert (order sc = 4%Z) as Ho by reflexivity.
  assert (order2 sc = 0%Z) as Ho2 by reflexivity.
  split.
  - rewrite get_better_time_step_finite by lra. rewrite Ho, Ho2.
    change (int_add 4 0) with 4%Z. change (Z.min 4 0) with 0%Z.
    replace (16 / 1) with 16 by lra.
    rewrite Rpower_16_4, Rpower_O by lra.
    unfold min. rewrite ltb_ge by lra. f_equal. lra.
  - unfold next_step_spec, of_int. rewrite Ho, Ho2.
    change (4 + 0)%Z with 4%Z. change (Z.min 4 0) with 0%Z.
    rewrite !div_finite by lra. rewrite !pow_pos_base by lra.
    replace (16 / 1) with 16 by lra. replace (0 / 4) with 0 by lra.
    rewrite Rpower_16_quarter, Rpower_O by lra.
    cbn [mul]. unfold min. rewrite ltb_ge by lra. f_equal. lra.
Qed.

(** The orders of a catalogued tableau: [order >= 1], [order2 >= 0]. *)
Lemma case_body_orders (m : rk_methods) (sc0 : solver_coeffs) :
  (1 <= order (exec (case_body m) sc0))%Z
  /\ (0 <= order2 (exec (case_body m) sc0))%Z.
Proof. destruct m; cbn; lia. Qed.

(** C3, refuted.  [err = 0] on the first step of an embedded pair, where
    the previous error is 0 as well: [tol / err] is [+inf], its power
    [+inf], [old_err / tol] and its power are 0, and the product
    [inf * 0] is NaN.  [std::min] hands the NaN back, which is not [<= 10]. *)
Lemma zero_error_can_return_nan :
  get_better_time_step (Fin 1) (Fin 0) (Fin 0) (Fin 1) 0
    (mk_solver_options None)
    (exec (case_body BOGACKI_SHAMPINE_32) (default_coeffs example_hpp))
    (Fin 10)
  = NaN
  /\ leb NaN (Fin 10) = false.
Proof.
  split; [|reflexivity].
  rewrite get_better_time_step_X64. unfold of_int.
  set (sc := exec _ _).
  assert (order sc = 3%Z) as -> by reflexivity.
  assert (order2 sc = 2%Z) as -> by reflexivity.
  change (int_add 3 2) with 5%Z. change (Z.min 3 2) with 2%Z.
  rewrite div_by_zero by lra. rewrite pow_inf_pos_exp by lra.
  rewrite mul_pos_inf by lra.
  rewrite div_finite by lra. replace (0 / 1) with 0 by lra.
  rewrite pow_zero_pos_exp by lra. rewrite mul_inf_zero.
  reflexivity.
Qed.

(** C5, refuted.  [err = old_err = 0] with the orders 5 and 4 of
    [DORMAND_PRINCE_54]: the product is [inf * 0], and the NaN that comes
    back is not [<= max_dt = 4]. *)
Lemma clamp_lets_nan_through :
  get_better_time_step (Fin 2) (Fin 0) (Fin 0) (Fin 1) 0
    (mk_solver_options None)
    (exec (case_body DORMAND_PRINCE_54) (default_coeffs example_hpp))
    (Fin 4)
  = NaN
  /\ leb NaN (Fin 4) = false.
Proof.
  split; [|reflexivity].
  rewrite get_better_time_step_X64. unfold of_int.
  set (sc := exec _ _).
  assert (order sc = 5%Z) as -> by reflexivity.
  assert (order2 sc = 4%Z) as -> by reflexivity.
  change (int_add 5 4) with 9%Z. change (Z.min 5 4) with 4%Z.
  rewrite div_by_zero by lra. rewrite pow_inf_pos_exp by lra.
  rewrite mul_pos_inf by lra.
  rewrite div_finite by lra. replace (0 / 1) with 0 by lra.
  rewrite pow_zero_pos_exp by lra. rewrite mul_inf_zero.
  reflexivity.
Qed.

Lemma ltb_irrefl (x : double) : ltb x x = false.
Proof.
  destruct x as [|[|]|a]; try reflexivity. apply ltb_ge. lra.
Qed.

Lemma leb_refl (x : double) : x <> NaN -> leb x x = true.
Proof.
  intros Hx. destruct x as [|[|]|a]; try reflexivity.
  - destruct (Hx eq_refl).
  - cbn. destruct (Rle_dec a a); [reflexivity|lra].
Qed.

Lemma not_ltb_leb (x y : double) :
  x <> NaN -> y <> NaN -> ltb y x = false -> leb x y = true.
Proof.
  intros Hx Hy.
  destruct x as [|[|]|a]; try (destruct (Hx eq_refl));
    destruct y as [|[|]|b']; try (destruct (Hy eq_refl));
    cbn; try reflexivity; try discriminate.
  destruct (Rlt_dec b' a); [discriminate|].
  destruct (Rle_dec a b'); [reflexivity|lra].
Qed.

(** C5, as the code has it.  Whatever the arguments, the value returned is
    never greater than [max_dt]; it is [<= max_dt] unless it or [max_dt] is
    NaN. *)
Theorem step_never_exceeds_max_dt (dt_old err old_err tol : double)
    (iters : Z) (opts : solver_options) (sc : solver_coeffs)
    (max_dt : double) :
  ltb max_dt
      (get_better_time_step dt_old err old_err tol iters opts sc max_dt)
  = false
  /\ (get_better_time_step dt_old err old_err tol iters opts sc max_dt = NaN
      \/ max_dt = NaN
      \/ leb (get_better_time_step dt_old err old_err tol iters opts sc max_dt)
             max_dt = true).
Proof.
  rewrite get_better_time_step_X64.
  set (dt_new := mul _ _). unfold min.
  destruct (ltb max_dt dt_new) eqn:Hlt.
  - split; [apply ltb_irrefl|].
    destruct max_dt as [|s|mx]; [right; left; reflexivity| |];
      right; right; apply leb_refl; discriminate.
  - split; [exact Hlt|].
    destruct dt_new as [|s|d] eqn:Hd; [left; reflexivity| |];
      (destruct max_dt as [|t|mx]; [right; left; reflexivity| |]);
      right; right; apply not_ltb_leb; (discriminate || exact Hlt).
Qed.

End Controller.

(** ** get_better_time_step in binary64 *)

Section ControllerBinary64.


Lemma one_canonical : canonical 4503599627370496 (-52).
Proof. split; [reflexivity | unfold emax, prec; lia]. Qed.

Lemma one_in_unit_interval : in_unit_interval one.
Proof. apply (below_refl 4503599627370496 (-52)). Qed.

(** On a positive finite double, [in_unit_interval] is [x <= 1]. *)
Lemma in_unit_interval_iff (x : double) :
  positive_finite x = true ->
  in_unit_interval x <-> F64.leb x one = true.
Proof.
  intros Hx. destruct (positive_finite_inv x Hx) as (m & e & -> & Hcan).
  unfold in_unit_interval, no_larger.
  change one with (S754_finite false 4503599627370496 (-52)).
  split; [apply leb_of_below|]. intros Hle.
  apply leb_finite_inv in Hle. cbn [below].
  destruct (canonical_bounds m e Hcan) as (_ & Hm & _).
  destruct Hle as [Hlt | [-> Hle]].
  - split; [lia|].
    assert (2 ^ 1 <= 2 ^ (-52 - e)) as P by (apply Z.pow_le_mono_r; lia).
    change (2 ^ 1) with 2 in P. change (2 ^ 53) with 9007199254740992 in Hm.
    lia.
  - split; [lia|]. rewrite Z.sub_diag. change (2 ^ 0) with 1. lia.
Qed.

Lemma pow_iter_unit (x : double) (n : nat) :
  in_unit_interval x -> in_unit_interval (pow_iter x n).
Proof.
  intros Hx. induction n as [|n IH]; cbn [pow_iter].
  - exact one_in_unit_interval.
  - apply (mul_below 4503599627370496 (-52)); [exact one_canonical | exact IH | exact Hx].
Qed.

(** The stand-in has the three properties asked of libm's [pow]. *)
Lemma pow_standin_libm : libm_pow pow_standin.
Proof.
  split.
  - intros x s. reflexivity.
  - intros [[|]|[|]| |[|] m e]; cbn [strictly_positive]; try tauto;
      intros _; reflexivity.
  - intros x [[|]|[|]| |[|] m e] Hx; cbn [nonnegative]; try tauto; intros _.
    + exact one_in_unit_interval.
    + pose proof Hx as Hx'. unfold in_unit_interval, no_larger in Hx'.
      change one with (S754_finite false 4503599627370496 (-52)) in Hx'.
      destruct x as [[|]| | |[|] mx ex]; cbn [below] in Hx'; try tauto;
        try exact I.
      destruct Hx' as [He Hm]. unfold pow_standin.
      destruct (ltb (fabs (S754_finite false mx ex)) one) eqn:H1; [exact I|].
      replace (ltb one (fabs (S754_finite false mx ex))) with false.
      { exact one_in_unit_interval. }
      symmetry. change one with (S754_finite false 4503599627370496 (-52)).
      unfold ltb, SFltb, fabs, SFabs, SFcompare.
      destruct (Z.compare_spec (-52) ex) as [<- | Hlt | Hgt];
        [| lia | reflexivity].
      rewrite Z.sub_diag in Hm. change (2 ^ 0) with 1 in Hm.
      rewrite Pos.compare_cont_spec. cbn [Pos.switch_Eq].
      destruct (Pos.compare_spec 4503599627370496 mx); try reflexivity. lia.
    + pose proof Hx as Hx'. unfold in_unit_interval, no_larger in Hx'.
      change one with (S754_finite false 4503599627370496 (-52)) in Hx'.
      unfold pow_standin.
      destruct x as [sx| | |[|] mx ex]; cbn [below] in Hx'; try tauto;
        apply pow_iter_unit; exact Hx.
Qed.

(** The controller on binary64, written out. *)
Lemma get_better_time_step_B64 (pow : double -> double -> double)
    (dt_old err old_err tol : double)
    (iters : Z) (opts : solver_options) (sc : solver_coeffs) (max_dt : double) :
  get_better_time_step (D := B64_doubles pow)
    dt_old err old_err tol iters opts sc max_dt
  = min64 (mul (mul dt_old
                  (pow (div tol err) (of_Z (int_add (order sc) (order2 sc)))))
             (pow (div old_err tol) (of_Z (Z.min (order sc) (order2 sc)))))
          max_dt.
Proof. reflexivity. Qed.

(** C3, as the code has it, in binary64.  The function has no branch for
    [err == 0]: with [err = +0] and a positive finite [tol] the quotient
    [tol / err] is [+inf].  When moreover [dt_old] is positive and finite,
    [order + order2 > 0], [max_dt] is not NaN, and the factor of the
    previous error, [pow(old_err / tol, min(order, order2))], is positive,
    which it is in particular when [min(order, order2) = 0], the product is
    [+inf] and the value returned is [max_dt] itself. *)
Theorem zero_error_returns_max_dt (pow : double -> double -> double)
    (dt_old old_err tol max_dt : double)
    (iters : Z) (opts : solver_options) (sc : solver_coeffs) :
  libm_pow pow ->
  positive_finite dt_old = true ->
  positive_finite tol = true ->
  0 < int_add (order sc) (order2 sc) ->
  Z.min (order sc) (order2 sc) = 0
    \/ strictly_positive
         (pow (F64.div old_err tol) (F64.of_Z (Z.min (order sc) (order2 sc)))) ->
  max_dt <> S754_nan ->
  F64.div tol (S754_zero false) = S754_infinity false
  /\ get_better_time_step (D := B64_doubles pow)
       dt_old (S754_zero false) old_err tol iters opts sc max_dt
     = max_dt.
Proof.
  intros Hpow Hdt Htol Halpha Hprev Hmax.
  destruct (positive_finite_inv dt_old Hdt) as (md & ed & -> & _).
  destruct (positive_finite_inv tol Htol) as (mt & et & -> & _).
  split; [reflexivity|].
  rewrite get_better_time_step_B64.
  change (div (S754_finite false mt et) (S754_zero false))
    with (S754_infinity false).
  rewrite (libm_inf_base pow Hpow) by (apply of_Z_pos, Halpha).
  change (mul (S754_finite false md ed) (S754_infinity false))
    with (S754_infinity false).
  set (p2 := pow _ _).
  assert (strictly_positive p2) as Hp2.
  { destruct Hprev as [Hmin | Hpos]; [|exact Hpos].
    subst p2. rewrite Hmin. change (of_Z 0) with (S754_zero false).
    rewrite (libm_zero_exponent pow Hpow). exact I. }
  assert (mul (S754_infinity false) p2 = S754_infinity false) as ->.
  { destruct p2 as [[|]|[|]| |[|] m e]; cbn in Hp2; try tauto; reflexivity. }
  unfold min64.
  destruct max_dt as [[|]|[|]| |[|] m e]; try reflexivity.
  destruct (Hmax eq_refl).
Qed.

Lemma zero_error_returns_max_dt_witness :
  F64.div one (S754_zero false) = S754_infinity false
  /\ get_better_time_step (D := B64_doubles pow_standin)
       one (S754_zero false) one one 0 (mk_solver_options None)
       (exec (case_body BOGACKI_SHAMPINE_32) (default_coeffs example_hpp))
       (F64.of_Z 10)
     = F64.of_Z 10.
Proof.
  apply zero_error_returns_max_dt.
  - exact pow_standin_libm.
  - reflexivity.
  - reflexivity.
  - vm_compute. reflexivity.
  - right. vm_compute. exact I.
  - vm_compute. discriminate.
Defined.




Lemma ltb_irrefl64 (x : double) : ltb x x = false.
Proof.
  unfold ltb, SFltb, SFcompare.
  destruct x as [[|]|[|]| |[|] m e]; try reflexivity;
    rewrite Z.compare_refl;
    change (Pos.compare_cont Eq m m) with (Pos.compare m m);
    rewrite Pos.compare_refl; reflexivity.
Qed.

(** The clamp in binary64, whatever [pow] returns: the value handed back is
    never greater than [max_dt]. *)
Theorem step_never_exceeds_max_dt_binary64 (pow : double -> double -> double)
    (dt_old err old_err tol max_dt : double)
    (iters : Z) (opts : solver_options) (sc : solver_coeffs) :
  F64.ltb max_dt
    (get_better_time_step (D := B64_doubles pow)
       dt_old err old_err tol iters opts sc max_dt)
  = false.
Proof.
  rewrite get_better_time_step_B64. set (dt_new := mul _ _). unfold min64.
  destruct (ltb max_dt dt_new) eqn:Hlt; [apply ltb_irrefl64 | exact Hlt].
Qed.

End ControllerBinary64.

(** * Further properties *)

(** ** The whole effect of get_coefficients *)

Lemma case_body_name (hpp : irk_hpp) (m : rk_methods) (nm : string) :
  name (set_dt (lit 5 2)
          (exec (case_body m)
             (set_name nm (set_FSAL false (default_coeffs hpp))))) = nm.
Proof. destruct m; reflexivity. Qed.

(** The run of [get_coefficients], step by step. *)
Lemma get_coefficients_run (hpp : irk_hpp) (method : Z) (g : globals) :
  exists sc g',
    get_coefficients hpp method g = Some (sc, g')
    /\ name sc = default ""%string (rk_method_to_string g !! method)
    /\ rk_method_to_string g' = <[method := name sc]> (rk_method_to_string g)
    /\ rk_string_to_method g' = rk_string_to_method g
    /\ cerr g'
       = cerr g
         ++ [ Str "Setting coeffs for method "; Str (name sc); Str "...\n" ]
         ++ match switch_case hpp method with
            | Some _ => []
            | None => [ Str "Method "; Int method; Str " not supported!\n" ]
            end
    /\ dt sc = lit 5 2.
Proof.
  unfold get_coefficients, bind. rewrite method_to_name_spec. cbn [print].
  set (nm := default ""%string (rk_method_to_string g !! method)).
  destruct (switch_case hpp method) as [m|] eqn:Hcase.
  - unfold ret at 1.
    set (sc := exec _ _). set (g1 := mk_globals _ _ _).
    rewrite for_each_quiet.
    + unfold ret. eexists _, _. split; [reflexivity|].
      subst sc g1. rewrite (case_body_name hpp m nm).
      cbn [rk_method_to_string rk_string_to_method cerr].
      rewrite app_nil_r. repeat split; reflexivity.
    + intros i Hi. apply check_row_quiet.
      pose proof (case_body_quiet hpp m nm) as Hq. cbv zeta in Hq.
      rewrite forallb_forall in Hq. apply Hq. exact Hi.
  - cbn [print bind ret default_coeffs set_FSAL set_name c length seq for_each].
    unfold bind, ret. cbn.
    eexists _, _. split; [reflexivity|]. cbn.
    rewrite <- app_assoc. repeat split; reflexivity.
Qed.

(** Whatever the identifier and the state, [get_coefficients] returns: no
    read of [A] in the check loop is out of bounds.  It names the tableau
    after what [rk_method_to_string] holds for the identifier (the empty
    string when it holds nothing, which it then stores), leaves
    [rk_string_to_method] alone, sets [dt = 0.05], and writes to [std::cerr]
    the announcement and, when no case matches, the not-supported line: the
    row-sum warning is never printed. *)
Theorem get_coefficients_effect (hpp : irk_hpp) (method : Z) (g : globals) :
  exists sc g',
    get_coefficients hpp method g = Some (sc, g')
    /\ name sc = default ""%string (rk_method_to_string g !! method)
    /\ rk_method_to_string g' = <[method := name sc]> (rk_method_to_string g)
    /\ rk_string_to_method g' = rk_string_to_method g
    /\ cerr g'
       = cerr g
         ++ [ Str "Setting coeffs for method "; Str (name sc); Str "...\n" ]
         ++ match switch_case hpp method with
            | Some _ => []
            | None => [ Str "Method "; Int method; Str " not supported!\n" ]
            end
    /\ dt sc = lit 5 2.
Proof. exact (get_coefficients_run hpp method g). Qed.

(** What a case label returns, for a property of the tableau that every case
    has whatever the name. *)
Lemma get_coefficients_every_case (P : solver_coeffs -> Prop) (hpp : irk_hpp) :
  distinct_ids hpp ->
  (forall m nm,
     P (set_dt (lit 5 2)
          (exec (case_body m)
             (set_name nm (set_FSAL false (default_coeffs hpp)))))) ->
  forall m g, exists sc g',
    get_coefficients hpp (method_id hpp m) g = Some (sc, g') /\ P sc.
Proof.
  intros Hinj HP m g.
  destruct (get_coefficients_case hpp m g Hinj) as (nm & g' & Hrun).
  eexists _, g'. split; [exact Hrun|]. apply HP.
Qed.

(** What [default:] returns. *)
Lemma get_coefficients_default (hpp : irk_hpp) (method : Z) (g : globals) :
  (forall m, method_id hpp m <> method) ->
  exists g',
    get_coefficients hpp method g
    = Some (set_dt (lit 5 2)
              (set_name (default ""%string (rk_method_to_string g !! method))
                 (set_FSAL false (default_coeffs hpp))), g')
    /\ cerr g'
       = cerr g ++ [ Str "Setting coeffs for method ";
                     Str (default ""%string (rk_method_to_string g !! method));
                     Str "...\n";
                     Str "Method "; Int method; Str " not supported!\n" ].
Proof.
  intros Hne. unfold get_coefficients, bind.
  rewrite method_to_name_spec. cbn [print].
  rewrite (switch_case_default hpp method Hne).
  cbn [print bind ret default_coeffs set_FSAL set_name c length seq for_each].
  unfold bind, ret. cbn.
  eexists. split; [reflexivity|]. cbn. rewrite <- app_assoc. reflexivity.
Qed.

(** The tableau [get_coefficients] returns for an identifier it does not
    support has no stage at all, and [verify_solver_coeffs] accepts it: the
    three sizes it compares are all 0. *)
Theorem verify_accepts_unsupported (hpp : irk_hpp) (method : Z) (g : globals) :
  (forall m, method_id hpp m <> method) ->
  exists sc g',
    get_coefficients hpp method g = Some (sc, g')
    /\ length (b sc) = 0%nat
    /\ verify_solver_coeffs sc = true.
Proof.
  intros Hne.
  destruct (get_coefficients_default hpp method g Hne) as (g' & Hrun & _).
  eexists _, g'. split; [exact Hrun|]. split; reflexivity.
Qed.

Lemma verify_accepts_unsupported_witness :
  exists sc g',
    get_coefficients example_hpp 0 (initial_globals example_hpp) = Some (sc, g')
    /\ length (b sc) = 0%nat
    /\ verify_solver_coeffs sc = true.
Proof.
  apply (verify_accepts_unsupported example_hpp 0 (initial_globals example_hpp)).
  intros m. cbn. destruct m; cbn; lia.
Defined.

(** ** The coefficients of the catalogue *)

(** For every case of the [switch] the weights [b] add up to 1 within
    [1e-15] in binary64, and so do the embedded weights [b2] of the cases
    that assign them. *)
Theorem weights_sum_to_one (hpp : irk_hpp) (m : rk_methods) (g : globals) :
  distinct_ids hpp ->
  exists sc g',
    get_coefficients hpp (method_id hpp m) g = Some (sc, g')
    /\ sums_to_one (b sc) = true
    /\ (b2 sc = [] \/ sums_to_one (b2 sc) = true).
Proof.
  intros Hinj. revert m g.
  apply (get_coefficients_every_case
           (fun sc => sums_to_one (b sc) = true
                      /\ (b2 sc = [] \/ sums_to_one (b2 sc) = true))
           hpp Hinj).
  intros m nm. split.
  - destruct m; vm_compute; reflexivity.
  - destruct m; first [ left; reflexivity | right; vm_compute; reflexivity ].
Qed.

Lemma weights_sum_to_one_witness :
  exists sc g',
    get_coefficients example_hpp 13 (initial_globals example_hpp) = Some (sc, g')
    /\ sums_to_one (b sc) = true
    /\ (b2 sc = [] \/ sums_to_one (b2 sc) = true).
Proof.
  exact (weights_sum_to_one example_hpp CASH_KARP_54
           (initial_globals example_hpp) example_distinct_ids).
Defined.

(** The bookkeeping of the embedded pair, for every case of the [switch]:
    between 1 and 7 stages, [1 <= order <= 6], [0 <= order2 < order], and
    [order2] is 0 exactly when [b2] is left empty; a [b2] that is assigned
    has as many entries as [b]. *)
Theorem embedded_pair_bookkeeping (hpp : irk_hpp) (m : rk_methods) (g : globals) :
  distinct_ids hpp ->
  exists sc g',
    get_coefficients hpp (method_id hpp m) g = Some (sc, g')
    /\ (1 <= length (b sc) <= 7)%nat
    /\ 1 <= order sc <= 6
    /\ 0 <= order2 sc < order sc
    /\ (order2 sc = 0 <-> b2 sc = [])
    /\ (b2 sc = [] \/ length (b2 sc) = length (b sc)).
Proof.
  intros Hinj. revert m g.
  apply (get_coefficients_every_case
           (fun sc => (1 <= length (b sc) <= 7)%nat
                      /\ 1 <= order sc <= 6
                      /\ 0 <= order2 sc < order sc
                      /\ (order2 sc = 0 <-> b2 sc = [])
                      /\ (b2 sc = [] \/ length (b2 sc) = length (b sc)))
           hpp Hinj).
  intros m nm.
  destruct m; cbn; repeat split; try lia; try discriminate;
    first [ left; reflexivity | right; reflexivity | idtac ].
Qed.

Lemma embedded_pair_bookkeeping_witness :
  exists sc g',
    get_coefficients example_hpp 14 (initial_globals example_hpp) = Some (sc, g')
    /\ (1 <= length (b sc) <= 7)%nat
    /\ 1 <= order sc <= 6
    /\ 0 <= order2 sc < order sc
    /\ (order2 sc = 0 <-> b2 sc = [])
    /\ (b2 sc = [] \/ length (b2 sc) = length (b sc)).
Proof.
  exact (embedded_pair_bookkeeping example_hpp DORMAND_PRINCE_54
           (initial_globals example_hpp) example_distinct_ids).
Defined.

(** [FSAL] is true for exactly three cases, [BOGACKI_SHAMPINE_32],
    [DORMAND_PRINCE_54] and [LOBATTO_IIIA_43], and false for the others
    (through the assignment before the [switch]).  Where it is true the last
    row of [A] is [b], entry for entry, and the last node is 1: the last
    stage of a step is the first stage of the next. *)
Theorem fsal_last_row_is_b (hpp : irk_hpp) (m : rk_methods) (g : globals) :
  distinct_ids hpp ->
  exists sc g',
    get_coefficients hpp (method_id hpp m) g = Some (sc, g')
    /\ (FSAL sc = true <->
        m = BOGACKI_SHAMPINE_32 \/ m = DORMAND_PRINCE_54
        \/ m = LOBATTO_IIIA_43)
    /\ (FSAL sc = true ->
        last (A sc) = Some (b sc) /\ last (c sc) = Some one).
Proof.
  intros Hinj.
  destruct (get_coefficients_case hpp m g Hinj) as (nm & g' & Hrun).
  eexists _, g'. split; [exact Hrun|]. split.
  - destruct m; cbn; split;
      first [ intros _; tauto
            | intros Hf; discriminate Hf
            | intros [Hm | [Hm | Hm]]; discriminate Hm ].
  - destruct m; first [ intros _; split; vm_compute; reflexivity
                      | intros Hf; vm_compute in Hf; discriminate Hf ].
Qed.

Lemma fsal_last_row_is_b_witness :
  exists sc g',
    get_coefficients example_hpp 12 (initial_globals example_hpp) = Some (sc, g')
    /\ (FSAL sc = true <->
        BOGACKI_SHAMPINE_32 = BOGACKI_SHAMPINE_32
        \/ BOGACKI_SHAMPINE_32 = DORMAND_PRINCE_54
        \/ BOGACKI_SHAMPINE_32 = LOBATTO_IIIA_43)
    /\ (FSAL sc = true ->
        last (A sc) = Some (b sc) /\ last (c sc) = Some one).
Proof.
  exact (fsal_last_row_is_b example_hpp BOGACKI_SHAMPINE_32
           (initial_globals example_hpp) example_distinct_ids).
Defined.

(** The cases above [// IMPLICIT METHODS:] are the ones whose [A] is strictly
    lower triangular, with one exception: [FEHLBERG_54] stores its
    coefficients at [A(j,i)], so its [A] is strictly upper triangular and not
    lower triangular. *)
Theorem explicit_cases_lower_triangular (hpp : irk_hpp) (m : rk_methods)
    (g : globals) :
  distinct_ids hpp ->
  exists sc g',
    get_coefficients hpp (method_id hpp m) g = Some (sc, g')
    /\ (m <> FEHLBERG_54 -> strictly_lower (A sc) = explicit_case m)
    /\ (m = FEHLBERG_54 ->
        strictly_lower (A sc) = false /\ strictly_upper (A sc) = true).
Proof.
  intros Hinj. revert g.
  destruct (decide (m = FEHLBERG_54)) as [-> | Hm].
  - intros g.
    destruct (get_coefficients_case hpp FEHLBERG_54 g Hinj) as (nm & g' & Hrun).
    eexists _, g'. split; [exact Hrun|]. split.
    + intros Hne. destruct (Hne eq_refl).
    + intros _. split; vm_compute; reflexivity.
  - intros g.
    destruct (get_coefficients_case hpp m g Hinj) as (nm & g' & Hrun).
    eexists _, g'. split; [exact Hrun|]. split.
    + intros _. destruct m; try (destruct (Hm eq_refl)); vm_compute; reflexivity.
    + intros Heq. destruct (Hm Heq).
Qed.

Lemma explicit_cases_lower_triangular_witness :
  exists sc g',
    get_coefficients example_hpp 15 (initial_globals example_hpp) = Some (sc, g')
    /\ (FEHLBERG_54 <> FEHLBERG_54 -> strictly_lower (A sc) = true)
    /\ (FEHLBERG_54 = FEHLBERG_54 ->
        strictly_lower (A sc) = false /\ strictly_upper (A sc) = true).
Proof.
  exact (explicit_cases_lower_triangular example_hpp FEHLBERG_54
           (initial_globals example_hpp) example_distinct_ids).
Defined.

(** ** The lookup tables under repeated and mixed calls *)

(** A lookup repeated gives the same answer and, the second time, changes
    nothing: whatever the first call inserted is found by the second. *)
Theorem lookups_settle (g : globals) (nm : string) (method : Z) :
  (exists id g1,
     name_to_method nm g = Some (id, g1)
     /\ name_to_method nm g1 = Some (id, g1))
  /\ (exists s g1,
     method_to_name method g = Some (s, g1)
     /\ method_to_name method g1 = Some (s, g1)).
Proof.
  split.
  - rewrite name_to_method_spec. eexists _, _. split; [reflexivity|].
    apply name_to_method_present. cbn. apply lookup_insert_eq.
  - rewrite method_to_name_spec. eexists _, _. split; [reflexivity|].
    apply method_to_name_present. cbn. apply lookup_insert_eq.
Qed.

(** The order of two lookups does not matter, neither for what they return
    nor for the state they leave: [name_to_method] against [method_to_name],
    and [name_to_method] on two names. *)
Theorem lookups_commute (g : globals) (nm nm' : string) (method : Z) :
  (let* id := name_to_method nm in
   let* s := method_to_name method in ret (id, s)) g
  = (let* s := method_to_name method in
     let* id := name_to_method nm in ret (id, s)) g
  /\ (let* id := name_to_method nm in
      let* id' := name_to_method nm' in ret (id, id')) g
     = (let* id' := name_to_method nm' in
        let* id := name_to_method nm in ret (id, id')) g.
Proof.
  split.
  - unfold bind, ret.
    repeat (rewrite ?name_to_method_spec, ?method_to_name_spec;
            cbn [rk_method_to_string rk_string_to_method cerr]).
    reflexivity.
  - unfold bind, ret.
    repeat (rewrite ?name_to_method_spec;
            cbn [rk_method_to_string rk_string_to_method cerr]).
    destruct (decide (nm = nm')) as [<- | Hne].
    + rewrite !lookup_insert_eq. cbn. reflexivity.
    + rewrite !lookup_insert_ne by congruence.
      rewrite insert_insert_ne by congruence. reflexivity.
Qed.

Lemma extends_refl (g : globals) : extends g g.
Proof. repeat split; reflexivity. Qed.

Lemma extends_trans (g1 g2 g3 : globals) :
  extends g1 g2 -> extends g2 g3 -> extends g1 g3.
Proof.
  intros (H1 & H2 & H3) (K1 & K2 & K3).
  repeat split; etransitivity; eassumption.
Qed.

Lemma insert_default_subseteq `{Countable K} {V} (k : K) (dflt : V)
    (m : gmap K V) :
  m ⊆ <[k := default dflt (m !! k)]> m.
Proof.
  destruct (m !! k) as [v|] eqn:Hk; cbn.
  - rewrite insert_id by exact Hk. reflexivity.
  - apply insert_subseteq, Hk.
Qed.

Lemma keeps_extends_print (g0 : globals) (ts : list token) :
  keeps (extends g0) (print ts).
Proof.
  intros g [] g' (H1 & H2 & H3) Hrun. unfold print in Hrun.
  injection Hrun as <-. repeat split; cbn; try assumption.
  etransitivity; [exact H3|]. apply prefix_app_r. reflexivity.
Qed.

Lemma keeps_extends_method_to_name (g0 : globals) (method : Z) :
  keeps (extends g0) (method_to_name method).
Proof.
  intros g s g' Hext Hrun. rewrite method_to_name_spec in Hrun.
  injection Hrun as _ <-. apply (extends_trans _ _ _ Hext).
  repeat split; cbn; try reflexivity. apply insert_default_subseteq.
Qed.

Lemma keeps_extends_name_to_method (g0 : globals) (nm : string) :
  keeps (extends g0) (name_to_method nm).
Proof.
  intros g s g' Hext Hrun. rewrite name_to_method_spec in Hrun.
  injection Hrun as _ <-. apply (extends_trans _ _ _ Hext).
  repeat split; cbn; try reflexivity. apply insert_default_subseteq.
Qed.

Lemma keeps_extends_get_coefficients (hpp : irk_hpp) (g0 : globals) (method : Z) :
  keeps (extends g0) (get_coefficients hpp method).
Proof.
  unfold get_coefficients.
  apply keeps_bind; [apply keeps_extends_method_to_name|]. intros nm.
  apply keeps_bind; [apply keeps_extends_print|]. intros _.
  apply keeps_bind.
  - destruct (switch_case hpp method).
    + apply keeps_ret.
    + apply keeps_bind; [apply keeps_extends_print|]. intros _. apply keeps_ret.
  - intros sc. apply keeps_bind; [|intros _; apply keeps_ret].
    apply keeps_for_each. intros i. unfold check_row.
    apply keeps_bind; [apply keeps_lift|]. intros ci.
    apply keeps_bind; [apply keeps_lift|]. intros si.
    destruct (gtb _ _); [|apply keeps_ret].
    apply keeps_bind; [apply keeps_extends_method_to_name|]. intros nm'.
    apply keeps_extends_print.
Qed.

(** No call ever takes anything away: after [method_to_name],
    [name_to_method] or [get_coefficients], both tables hold every entry they
    held before, with the same value, and [std::cerr] starts with what it held
    before. *)
Theorem calls_only_add (hpp : irk_hpp) (k : call) (g g' : globals) :
  after_call hpp k g = Some g' -> extends g g'.
Proof.
  intros Hcall. destruct k as [method|nm|method]; cbn in Hcall.
  - destruct (method_to_name method g) as [[x g1]|] eqn:Hrun;
      cbn in Hcall; [|discriminate]. injection Hcall as ->.
    eapply keeps_extends_method_to_name; [apply extends_refl|exact Hrun].
  - destruct (name_to_method nm g) as [[x g1]|] eqn:Hrun;
      cbn in Hcall; [|discriminate]. injection Hcall as ->.
    eapply keeps_extends_name_to_method; [apply extends_refl|exact Hrun].
  - destruct (get_coefficients hpp method g) as [[x g1]|] eqn:Hrun;
      cbn in Hcall; [|discriminate]. injection Hcall as ->.
    eapply keeps_extends_get_coefficients; [apply extends_refl|exact Hrun].
Qed.

Lemma calls_only_add_witness :
  exists g',
    after_call example_hpp (NameToMethod "NOT_A_METHOD")
               (initial_globals example_hpp) = Some g'
    /\ extends (initial_globals example_hpp) g'.
Proof.
  eexists. split; [reflexivity|].
  apply (calls_only_add example_hpp (NameToMethod "NOT_A_METHOD")).
  reflexivity.
Defined.

(** In a reachable state, [get_coefficients] on a catalogued identifier
    names the tableau with the method's string and leaves both tables as they
    were: only [std::cerr] grows, by the announcement. *)
Theorem get_coefficients_catalogued (hpp : irk_hpp) (m : rk_methods)
    (g : globals) :
  distinct_ids hpp -> distinct_names hpp -> reachable hpp g ->
  exists sc g',
    get_coefficients hpp (method_id hpp m) g = Some (sc, g')
    /\ name sc = method_str hpp m
    /\ rk_method_to_string g' = rk_method_to_string g
    /\ rk_string_to_method g' = rk_string_to_method g
    /\ cerr g' = cerr g ++ [ Str "Setting coeffs for method ";
                             Str (method_str hpp m); Str "...\n" ].
Proof.
  intros Hids Hnames Hreach.
  destruct (reachable_tables_inv hpp Hids Hnames g Hreach) as (H1 & _).
  destruct (get_coefficients_run hpp (method_id hpp m) g)
    as (sc & g' & Hrun & Hname & Htbl & Hstr & Hcerr & _).
  rewrite (H1 m) in Hname. cbn in Hname.
  exists sc, g'. split; [exact Hrun|]. split; [exact Hname|].
  split; [|split; [exact Hstr|]].
  - rewrite Htbl, Hname. apply insert_id, H1.
  - rewrite Hcerr, Hname, (switch_case_label hpp m Hids), app_nil_r.
    reflexivity.
Qed.

Lemma get_coefficients_catalogued_witness :
  exists sc g',
    get_coefficients example_hpp 23 (initial_globals example_hpp) = Some (sc, g')
    /\ name sc = "LOBATTO_IIIC_43"%string
    /\ rk_method_to_string g' = rk_method_to_string (initial_globals example_hpp)
    /\ rk_string_to_method g' = rk_string_to_method (initial_globals example_hpp)
    /\ cerr g' = [ Str "Setting coeffs for method ";
                   Str "LOBATTO_IIIC_43"; Str "...\n" ].
Proof.
  exact (get_coefficients_catalogued example_hpp LOBATTO_IIIC_43
           (initial_globals example_hpp) example_distinct_ids
           example_distinct_names (reach_init example_hpp)).
Defined.

(** In a reachable state, a name that is not catalogued does not survive the
    round trip: [name_to_method] gives 0, and [method_to_name] of 0 gives the
    empty string. *)
Theorem unknown_name_roundtrip (hpp : irk_hpp) (g : globals) (nm : string) :
  distinct_ids hpp -> distinct_names hpp -> nonzero_ids hpp ->
  reachable hpp g -> (forall m, nm <> method_str hpp m) ->
  exists g',
    (let* id := name_to_method nm in method_to_name id) g
    = Some (""%string, g').
Proof.
  intros Hids Hnames Hnz Hreach Hnot.
  destruct (reachable_tables_inv hpp Hids Hnames g Hreach) as (_ & _ & H3 & H4).
  unfold bind. rewrite name_to_method_spec.
  assert (default 0 (rk_string_to_method g !! nm) = 0) as ->.
  { destruct (rk_string_to_method g !! nm) as [id|] eqn:Hk; [|reflexivity].
    destruct (H3 _ _ Hk) as [-> | (m & -> & _)]; [reflexivity|].
    destruct (Hnot m eq_refl). }
  rewrite method_to_name_spec. cbn [rk_method_to_string].
  assert (default ""%string (rk_method_to_string g !! 0) = ""%string) as ->.
  { destruct (rk_method_to_string g !! 0) as [s|] eqn:Hk; [|reflexivity].
    destruct (H4 _ _ Hk) as [-> | (m & Hid & _)]; [reflexivity|].
    destruct (Hnz m). congruence. }
  eexists. reflexivity.
Qed.

Lemma unknown_name_roundtrip_witness :
  exists g',
    (let* id := name_to_method "RADAU_IIA_53" in method_to_name id)
      (initial_globals example_hpp)
    = Some (""%string, g').
Proof.
  apply (unknown_name_roundtrip example_hpp).
  - exact example_distinct_ids.
  - exact example_distinct_names.
  - exact example_nonzero_ids.
  - apply reach_init.
  - intros m. destruct m; discriminate.
Defined.

(** In a reachable state, the identifier [name_to_method] gives for a name
    that is not catalogued takes [get_coefficients] to [default:]: the
    tableau that comes back has no stage, and [std::cerr] ends with
    "Method 0 not supported!". *)
Theorem unknown_name_coefficients (hpp : irk_hpp) (g : globals) (nm : string) :
  distinct_ids hpp -> distinct_names hpp -> nonzero_ids hpp ->
  reachable hpp g -> (forall m, nm <> method_str hpp m) ->
  exists sc g',
    (let* id := name_to_method nm in get_coefficients hpp id) g = Some (sc, g')
    /\ A sc = [] /\ b sc = [] /\ c sc = []
    /\ cerr g' = cerr g ++ [ Str "Setting coeffs for method "; Str (name sc);
                             Str "...\n";
                             Str "Method "; Int 0; Str " not supported!\n" ].
Proof.
  intros Hids Hnames Hnz Hreach Hnot.
  destruct (reachable_tables_inv hpp Hids Hnames g Hreach) as (_ & _ & H3 & _).
  unfold bind. rewrite name_to_method_spec.
  assert (default 0 (rk_string_to_method g !! nm) = 0) as ->.
  { destruct (rk_string_to_method g !! nm) as [id|] eqn:Hk; [|reflexivity].
    destruct (H3 _ _ Hk) as [-> | (m & -> & _)]; [reflexivity|].
    destruct (Hnot m eq_refl). }
  set (g1 := mk_globals _ _ _).
  destruct (get_coefficients_default hpp 0 g1 Hnz) as (g' & Hrun & Hcerr).
  eexists _, g'. split; [exact Hrun|].
  repeat split. exact Hcerr.
Qed.

Lemma unknown_name_coefficients_witness :
  exists sc g',
    (let* id := name_to_method "RADAU_IIA_53" in get_coefficients example_hpp id)
      (initial_globals example_hpp) = Some (sc, g')
    /\ A sc = [] /\ b sc = [] /\ c sc = []
    /\ cerr g' = [ Str "Setting coeffs for method "; Str (name sc); Str "...\n";
                   Str "Method "; Int 0; Str " not supported!\n" ].
Proof.
  apply (unknown_name_coefficients example_hpp (initial_globals example_hpp)).
  - exact example_distinct_ids.
  - exact example_distinct_names.
  - exact example_nonzero_ids.
  - apply reach_init.
  - intros m. destruct m; discriminate.
Defined.

(** ** The controller at the tolerance, without embedded pair, on NaN *)

Section ControllerFurther.
Import X64.
Local Open Scope R_scope.

Lemma Rpower_1_base (e : R) : Rpower 1 e = 1.
Proof. unfold Rpower. rewrite ln_1, Rmult_0_r, exp_0. reflexivity. Qed.

Lemma pow_zero_exponent (x : double) : pow x (Fin 0) = one.
Proof. destruct x as [|s|a]; cbn; rewrite Rzero_eq; reflexivity. Qed.

Lemma mul_one_r (x : double) : mul x one = x.
Proof.
  destruct x as [|s|a]; cbn.
  - reflexivity.
  - rewrite Rzero_neq by lra. rewrite Rneg_ge by lra.
    destruct s; reflexivity.
  - f_equal. lra.
Qed.

(** An error exactly at the tolerance, for this step and the one before,
    leaves the step size as it is, up to the clamp. *)
Theorem step_unchanged_at_tolerance (dt_old tol : R) (iters : Z)
    (opts : solver_options) (sc : solver_coeffs) (max_dt : double) :
  0 < tol ->
  get_better_time_step (Fin dt_old) (Fin tol) (Fin tol) (Fin tol)
                       iters opts sc max_dt
  = min (Fin dt_old) max_dt.
Proof.
  intros Ht. rewrite get_better_time_step_finite by exact Ht.
  replace (tol / tol) with 1 by (field; lra).
  rewrite !Rpower_1_base. do 2 f_equal. lra.
Qed.

Lemma step_unchanged_at_tolerance_witness :
  get_better_time_step (Fin 1) (Fin 2) (Fin 2) (Fin 2) 0
    (mk_solver_options None)
    (exec (case_body DORMAND_PRINCE_54) (default_coeffs example_hpp)) (Fin 10)
  = min (Fin 1) (Fin 10).
Proof. apply step_unchanged_at_tolerance. lra. Defined.

(** For a tableau without embedded estimate ([min(order, order2) = 0]) the
    previous error plays no part, whatever it is: zero, infinite or NaN, the
    second power is [pow(x, 0) = 1] and the result is that of the first
    factor alone. *)
Theorem no_embedded_ignores_old_err (dt_old err old_err tol : double)
    (iters : Z) (opts : solver_options) (sc : solver_coeffs)
    (max_dt : double) :
  Z.min (order sc) (order2 sc) = 0%Z ->
  get_better_time_step dt_old err old_err tol iters opts sc max_dt
  = min (mul dt_old
           (pow (div tol err) (of_int (int_add (order sc) (order2 sc)))))
        max_dt.
Proof.
  intros Hmin. rewrite get_better_time_step_X64. rewrite Hmin.
  unfold of_int at 2. rewrite pow_zero_exponent, mul_one_r. reflexivity.
Qed.

Lemma no_embedded_ignores_old_err_witness :
  get_better_time_step (Fin 1) (Fin 1) NaN (Fin 16) 0
    (mk_solver_options None)
    (exec (case_body RUNGE_KUTTA_4) (default_coeffs example_hpp)) (Fin 10)
  = min (mul (Fin 1)
           (pow (div (Fin 16) (Fin 1))
              (of_int (int_add
                         (order (exec (case_body RUNGE_KUTTA_4)
                                   (default_coeffs example_hpp)))
                         (order2 (exec (case_body RUNGE_KUTTA_4)
                                    (default_coeffs example_hpp)))))))
        (Fin 10).
Proof. apply no_embedded_ignores_old_err. reflexivity. Defined.

(** A NaN error estimate is not caught by the clamp: for
    [order + order2 <> 0] the value returned is NaN, whatever [dt_old],
    [old_err], [tol] and [max_dt] are. *)
Theorem nan_error_gives_nan_step (dt_old old_err tol : double) (iters : Z)
    (opts : solver_options) (sc : solver_coeffs) (max_dt : double) :
  int_add (order sc) (order2 sc) <> 0%Z ->
  get_better_time_step dt_old NaN old_err tol iters opts sc max_dt = NaN.
Proof.
  intros Halpha. rewrite get_better_time_step_X64. unfold of_int.
  assert (div tol NaN = NaN) as -> by (destruct tol; reflexivity).
  assert (pow NaN (Fin (IZR (int_add (order sc) (order2 sc)))) = NaN) as ->.
  { cbn. rewrite Rzero_neq; [reflexivity|].
    intros Hz. apply eq_IZR_R0 in Hz. exact (Halpha Hz). }
  assert (mul dt_old NaN = NaN) as -> by (destruct dt_old; reflexivity).
  cbn [mul]. unfold min.
  destruct max_dt as [|[|]|mx]; reflexivity.
Qed.

Lemma nan_error_gives_nan_step_witness :
  get_better_time_step (Fin 1) NaN (Fin 1) (Fin 1) 0 (mk_solver_options None)
    (exec (case_body RUNGE_KUTTA_4) (default_coeffs example_hpp)) (Fin 10)
  = NaN.
Proof. apply nan_error_gives_nan_step. discriminate. Defined.

End ControllerFurther.

(** ** The Brusselator *)

Section BrusselatorFacts.
Import Brusselator.
Local Open Scope R_scope.

(** In binary64, at the start [main] sets up: [fun] is [{-5, 5}] and [jac] is
    [{{0.5, 4}, {-1.5, -4}}], all exact. *)
Example fun_at_main_start :
  fun_ (T := F64.double) main_brus F64.zero main_Y0
  = Some [ F64.of_Z (-5); F64.of_Z 5 ]
  /\ jac (T := F64.double) main_brus F64.zero main_Y0
     = Some [ [ F64.lit 5 1; F64.of_Z 4 ];
              [ F64.opp (F64.lit 15 1); F64.of_Z (-4) ] ].
Proof. split; vm_compute; reflexivity. Qed.

Lemma quadratic_derivative (p q r x0 : R) :
  derivable_pt_lim (fun x => p * (x * x) + q * x + r) x0 (2 * p * x0 + q).
Proof.
  apply (derivable_pt_lim_ext
           (plus_fct (plus_fct (mult_fct (fct_cte p) (mult_fct id id))
                               (mult_fct (fct_cte q) id))
                     (fct_cte r))).
  - intros z. reflexivity.
  - replace (2 * p * x0 + q)
      with ((0 * mult_fct id id x0 + fct_cte p x0 * (1 * id x0 + id x0 * 1))
            + (0 * id x0 + fct_cte q x0 * 1) + 0)
      by (unfold mult_fct, fct_cte, id; ring).
    repeat first [ apply derivable_pt_lim_plus
                 | apply derivable_pt_lim_mult
                 | apply derivable_pt_lim_const
                 | apply derivable_pt_lim_id ].
Qed.

Lemma quadratic_derivative_of (f : R -> R) (p q r x0 l : R) :
  (forall z, p * (z * z) + q * z + r = f z) -> l = 2 * p * x0 + q ->
  derivable_pt_lim f x0 l.
Proof.
  intros Hf ->.
  apply (derivable_pt_lim_ext (fun x => p * (x * x) + q * x + r)); [exact Hf|].
  apply quadratic_derivative.
Qed.

(** [jac] is the Jacobian of [fun] (in exact arithmetic): entry [(i,j)] of
    [jac(t, Y)] is the derivative of component [i] of [fun(t, Y)] with
    respect to [Y[j]]. *)
Theorem jac_is_derivative_of_fun (br : brusselator R) (t y0 y1 : R) :
  derivable_pt_lim (fun x => component (fun_ br t [x; y1]) 0) y0
                   (entry (jac br t [y0; y1]) 0 0)
  /\ derivable_pt_lim (fun y => component (fun_ br t [y0; y]) 0) y1
                      (entry (jac br t [y0; y1]) 0 1)
  /\ derivable_pt_lim (fun x => component (fun_ br t [x; y1]) 1) y0
                      (entry (jac br t [y0; y1]) 1 0)
  /\ derivable_pt_lim (fun y => component (fun_ br t [y0; y]) 1) y1
                      (entry (jac br t [y0; y1]) 1 1).
Proof.
  cbn. split; [|split; [|split]].
  - apply (quadratic_derivative_of _ y1 (- b br - 1) (a br));
      [intros z|]; ring.
  - apply (quadratic_derivative_of _ 0 (y0 * y0) (a br - b br * y0 - y0));
      [intros z|]; ring.
  - apply (quadratic_derivative_of _ (- y1) (b br) 0); [intros z|]; ring.
  - apply (quadratic_derivative_of _ 0 (- (y0 * y0)) (b br * y0));
      [intros z|]; ring.
Qed.

(** For [a <> 0] the right-hand side vanishes at one point only,
    [Y = (a, b/a)] (in exact arithmetic). *)
Theorem equilibrium_unique (br : brusselator R) (t y0 y1 : R) :
  a br <> 0 ->
  fun_ br t [y0; y1] = Some [0; 0] <-> y0 = a br /\ y1 = b br / a br.
Proof.
  intros Ha. cbn. split.
  - intros Heq. injection Heq as E0 E1.
    assert (y0 = a br) as -> by lra.
    split; [reflexivity|].
    apply (Rmult_eq_reg_l (a br * a br)); [|nra].
    field_simplify; [|exact Ha]. lra.
  - intros [-> ->]. f_equal. f_equal; [|f_equal]; field; exact Ha.
Qed.

Lemma equilibrium_unique_witness :
  fun_ (mk_brusselator 2 (13 / 2)) 0 [2; 13 / 4] = Some [0; 0]
  <-> 2 = a (mk_brusselator 2 (13 / 2))
      /\ 13 / 4 = b (mk_brusselator 2 (13 / 2)) / a (mk_brusselator 2 (13 / 2)).
Proof. apply equilibrium_unique. cbn. lra. Defined.

(** At the equilibrium the Jacobian has determinant [a^2] and trace
    [b - (1 + a^2)]: the trace changes sign at [b = 1 + a^2].  With
    [b = a*a + 2.5] as [main] sets it the trace is [3/2], past that
    point (in exact arithmetic). *)
Theorem jacobian_at_equilibrium (br : brusselator R) (t : R) :
  a br <> 0 ->
  let J := jac br t [a br; b br / a br] in
  entry J 0 0 + entry J 1 1 = b br - (1 + a br * a br)
  /\ entry J 0 0 * entry J 1 1 - entry J 0 1 * entry J 1 0 = a br * a br
  /\ (b br = a br * a br + 5 / 2 -> entry J 0 0 + entry J 1 1 = 3 / 2)
  /\ b (main_brus (T := R)) = a main_brus * a main_brus + 5 / 2.
Proof.
  intros Ha J. subst J. cbn.
  assert (2 * a br * (b br / a br) = 2 * b br) as -> by (field; exact Ha).
  repeat split; try intros Hb; try lra.
Qed.

Lemma jacobian_at_equilibrium_witness :
  let J := jac (main_brus (T := R)) 0
             [a (main_brus (T := R)); b (main_brus (T := R)) / a main_brus] in
  entry J 0 0 + entry J 1 1
  = b (main_brus (T := R)) - (1 + a (main_brus (T := R)) * a main_brus)
  /\ entry J 0 0 * entry J 1 1 - entry J 0 1 * entry J 1 0
     = a (main_brus (T := R)) * a main_brus
  /\ (b (main_brus (T := R)) = a (main_brus (T := R)) * a main_brus + 5 / 2 ->
      entry J 0 0 + entry J 1 1 = 3 / 2)
  /\ b (main_brus (T := R)) = a main_brus * a main_brus + 5 / 2.
Proof. apply (jacobian_at_equilibrium main_brus 0). cbn. lra. Defined.

End BrusselatorFacts.
